(** * LFPy example2_mpi: distributing the LFP grid over MPI ranks

    A shallow embedding of [examples/example2_mpi.py]: the strided slicing
    that hands each rank its contact points, the send/receive/barrier
    exchange with rank 0, and the concatenation that rebuilds one electrode
    on rank 0. *)

From Stdlib Require Import Reals Lra ZArith.
From stdpp Require Import base tactics option list.

(** ** Python slicing [a[start::step]] *)

Module Slicing.
Section Slice.
Context {A : Type}.

(** Walk the array, dropping [skip] elements, keeping one, then dropping
    [step - 1] before the next one that is kept. *)
Fixpoint stride (step skip : nat) (a : list A) : list A :=
  match a with
  | [] => []
  | v :: a' =>
      match skip with
      | O => v :: stride step (step - 1) a'
      | S skip' => stride step skip' a'
      end
  end.

(** [a[start::step]] for a non-negative [start]; a zero step raises
    ValueError, which is the [None] here. *)
Definition slice (start step : nat) (a : list A) : option (list A) :=
  if Nat.eqb step 0 then None else Some (stride step start a).

End Slice.
End Slicing.

Import Slicing.

(** ** The contact grid (lines 76-77) *)

Module Grid.

(** The integers [lo, lo+1, ..., hi-1] of one [lo:hi] slice of [np.mgrid]. *)
Definition arange (lo hi : Z) : list Z :=
  (λ k, (lo + Z.of_nat k)%Z) <$> seq 0 (Z.to_nat (hi - lo)).

(** [np.mgrid[lo1:hi1, lo2:hi2]]: two matrices, the first constant along
    its rows and the second constant along its columns. *)
Definition mgrid (lo1 hi1 lo2 hi2 : Z) : list (list Z) * list (list Z) :=
  ((λ a, (λ _, a) <$> arange lo2 hi2) <$> arange lo1 hi1,
   (λ _, arange lo2 hi2) <$> arange lo1 hi1).

Definition times (c : Z) (m : list (list Z)) : list (list Z) :=
  fmap (M := list) (fmap (M := list) (Z.mul c)) m.

(** [np.zeros(m.shape)] *)
Definition zeros_like (m : list (list Z)) : list (list Z) :=
  fmap (M := list) (fmap (M := list) (λ _, 0%Z)) m.

(** Row-major [.flatten()]. *)
Definition flatten (m : list (list Z)) : list Z := mjoin m.

Definition X : list (list Z) := times 10 (fst (mgrid (-5) 6 (-5) 6)).
(** The script calls this matrix [Z]; that name is the integers here. *)
Definition Z_ : list (list Z) := times 10 (snd (mgrid (-5) 6 (-5) 6)).
Definition Y : list (list Z) := zeros_like X.

End Grid.

(** ** Exceptions *)

Inductive error : Set :=
| ValueError               (* slice step cannot be zero *)
| AttributeError           (* attribute access on None *)
| TypeError                (* iteration over None *)
| DegenerateGeometryError
| ConfigurationError.

Definition exn (A : Type) : Type := (error + A)%type.

Definition raise {A} (e : error) : exn A := inl e.
Definition ret {A} (a : A) : exn A := inr a.
Definition bind {A B} (m : exn A) (k : A → exn B) : exn B :=
  match m with
  | inl e => inl e
  | inr a => k a
  end.

Notation "'do' v <- m ;; k" := (bind m (λ v, k))
  (at level 10, v name, m at level 99, k at level 200, only parsing).

Definition of_option {A} (e : error) (o : option A) : exn A :=
  match o with
  | Some a => ret a
  | None => raise e
  end.

(** Apply [f] to the elements in order and stop at the first exception. *)
Fixpoint for_all {A B} (f : A → exn B) (l : list A) : exn (list B) :=
  match l with
  | [] => ret []
  | a :: l' => do b <- f a ;; do bs <- for_all f l' ;; ret (b :: bs)
  end.

(** A [for] loop whose body updates the namespace and may raise. *)
Fixpoint for_each {S A} (body : S → A → exn S) (s : S) (l : list A) : exn S :=
  match l with
  | [] => ret s
  | a :: l' => do s' <- body s a ;; for_each body s' l'
  end.

(** [xrange(a, b)] *)
Definition xrange (a b : nat) : list nat := seq a (b - a).

(** ** The script *)

Section Script.
Context {coord row cell_t : Type}.

(** Modelled from the spec: the forward model behind
    [LFPy.RecExtElectrode] and [cell.simulate], which the script calls but
    does not define. It yields one potential trace per contact point from
    the simulated cell, or raises at the offending point. *)
Variable potential : cell_t → coord * coord * coord → exn row.

Record RecExtElectrode : Type := {
  x : list coord;
  y : list coord;
  z : list coord;
  LFP : list row
}.

Definition contacts (e : RecExtElectrode) : list (coord * coord * coord) :=
  zip (zip (x e) (y e)) (z e).

(** [cell.simulate(electrode = electrode)] fills [electrode.LFP], a row per
    contact, in contact order; the first failing contact aborts it. *)
Definition simulate (c : cell_t) (e : RecExtElectrode) : exn RecExtElectrode :=
  do lfp <- for_all (potential c) (contacts e) ;;
  ret {| x := x e; y := y e; z := z e; LFP := lfp |}.

(** Lines 80-86: the three strided slices. *)
Definition electrodeParameters (RANK SIZE : nat) (Xf Yf Zf : list coord)
  : exn (list coord * list coord * list coord) :=
  do xs <- of_option ValueError (slice RANK SIZE Xf) ;;
  do ys <- of_option ValueError (slice RANK SIZE Yf) ;;
  do zs <- of_option ValueError (slice RANK SIZE Zf) ;;
  ret (xs, ys, zs).

(** Line 117: [result = [electrode.x, electrode.y, electrode.z, electrode.LFP]] *)
Definition Message : Type := (list coord * list coord * list coord * list row)%type.

Definition message_of (e : RecExtElectrode) : Message := (x e, y e, z e, LFP e).

(** Lines 128-131: [np.r_] appends along the first axis. *)
Definition append_result (e : RecExtElectrode) (result : Message) : RecExtElectrode :=
  let '(rx, ry, rz, rlfp) := result in
  {| x := x e ++ rx; y := y e ++ ry; z := z e ++ rz; LFP := LFP e ++ rlfp |}.

Definition merge (e : RecExtElectrode) (results : list Message) : RecExtElectrode :=
  foldl append_result e results.

(** The names the gather reads or writes; [None] is Python's [None] or a
    name not bound yet. *)
Record Namespace : Type := {
  electrode : option RecExtElectrode;
  results : option (list Message);
  result : option Message;
  i : option nat;
  cell : cell_t
}.

(** Where a rank stands between two MPI calls. The plotting that follows
    the merge on rank 0 (lines 133-139) is not part of the model. *)
Inductive label : Type :=
| L_collect (todo : list nat)   (* line 114, [todo] are the values of [i] still to come *)
| L_send                        (* line 117 *)
| L_barrier                     (* line 122 *)
| L_done                        (* past line 131 on rank 0, line 142 elsewhere *)
| L_raised (e : error).         (* an exception nobody handles ended the script *)

Record proc : Type := { pc : label; ns : Namespace }.

Definition collect_from (todo : list nat) : label :=
  match todo with
  | [] => L_barrier
  | _ :: _ => L_collect todo
  end.

(** Lines 80-112 on one rank, up to its first MPI call. [Xf], [Yf] and [Zf]
    are the flattened grids of lines 76-77 and [c] is the cell with the
    currents that [cell.simulate] computes, the same on every rank. *)
Definition boot (RANK SIZE : nat) (Xf Yf Zf : list coord) (c : cell_t) : proc :=
  let ns0 := {| electrode := None; results := None; result := None;
                i := None; cell := c |} in
  match electrodeParameters RANK SIZE Xf Yf Zf with
  | inl err => {| pc := L_raised err; ns := ns0 |}
  | inr (xs, ys, zs) =>
      let e0 := {| x := xs; y := ys; z := zs; LFP := [] |} in
      match simulate c e0 with
      | inl err =>
          {| pc := L_raised err;
             ns := {| electrode := Some e0; results := None; result := None;
                      i := None; cell := c |} |}
      | inr e =>
          let ns1 := {| electrode := Some e; results := Some []; result := None;
                        i := None; cell := c |} in
          if Nat.eqb RANK 0
          then {| pc := collect_from (xrange 1 SIZE); ns := ns1 |}
          else {| pc := L_send; ns := ns1 |}
      end
  end.

(** Lines 114-115: one turn of the receive loop, given the message that
    [COMM.recv(source=MPI.ANY_SOURCE)] returned. *)
Definition on_recv (p : proc) (m : Message) : option proc :=
  match pc p with
  | L_collect (k :: todo) =>
      Some match results (ns p) with
           | None => {| pc := L_raised AttributeError;
                        ns := {| electrode := electrode (ns p); results := None;
                                 result := Some m; i := Some k;
                                 cell := cell (ns p) |} |}
           | Some rs => {| pc := collect_from todo;
                           ns := {| electrode := electrode (ns p);
                                    results := Some (rs ++ [m]);
                                    result := Some m; i := Some k;
                                    cell := cell (ns p) |} |}
           end
  | _ => None
  end.

(** Lines 117-120: the message, its destination and the rank afterwards. *)
Definition on_send (p : proc) : option (Message * nat * proc) :=
  match pc p, electrode (ns p) with
  | L_send, Some e =>
      let m := message_of e in
      Some (m, 0,
            {| pc := L_barrier;
               ns := {| electrode := None; results := None; result := Some m;
                        i := i (ns p); cell := cell (ns p) |} |})
  | _, _ => None
  end.

(** Lines 127-131, one turn. *)
Definition merge_step (n : Namespace) (r : Message) : exn Namespace :=
  match electrode n with
  | None => raise AttributeError
  | Some e => ret {| electrode := Some (append_result e r); results := results n;
                     result := Some r; i := i n; cell := cell n |}
  end.

(** Lines 124-142: what a rank does once the barrier lets it through:
    rank 0 runs the merge loop, the others nothing. *)
Definition after_barrier (RANK : nat) (p : proc) : proc :=
  if Nat.eqb RANK 0 then
    match results (ns p) with
    | None => {| pc := L_raised TypeError; ns := ns p |}
    | Some rs =>
        match for_each merge_step (ns p) rs with
        | inl err => {| pc := L_raised err; ns := ns p |}
        | inr n => {| pc := L_done; ns := n |}
        end
    end
  else {| pc := L_done; ns := ns p |}.

(** *** The ranks together *)

(** Every rank's state and the messages sent but not yet received, each
    with its source and destination. *)
Record world : Type := { procs : list proc; net : list (nat * nat * Message) }.

Inductive event : Type :=
| EvSend (src dest : nat) (m : Message)
| EvRecv (dest src : nat) (m : Message)
| EvBarrier.

(** The MPI calls of the script. [COMM.send] is buffered: the message goes
    in flight and the sender goes on (a send that waits for its receive is
    the run in which that receive is the next step).
    [COMM.recv(source=MPI.ANY_SOURCE)] waits until some message addressed
    to the receiver is in flight and takes any one of them. [COMM.Barrier]
    releases all ranks at once, when every one of them waits at it. *)
Inductive step (w : world) : event → world → Prop :=
| step_send r p m dest p' :
    procs w !! r = Some p →
    on_send p = Some (m, dest, p') →
    step w (EvSend r dest m)
         {| procs := <[r := p']> (procs w); net := net w ++ [(r, dest, m)] |}
| step_recv r p src m p' n1 n2 :
    procs w !! r = Some p →
    net w = n1 ++ (src, r, m) :: n2 →
    on_recv p m = Some p' →
    step w (EvRecv r src m)
         {| procs := <[r := p']> (procs w); net := n1 ++ n2 |}
| step_barrier :
    Forall (λ p, pc p = L_barrier) (procs w) →
    step w EvBarrier {| procs := imap after_barrier (procs w); net := net w |}.

Inductive run (w : world) : list event → world → Prop :=
| run_nil : run w [] w
| run_snoc tr w' ev w'' : run w tr w' → step w' ev w'' → run w (tr ++ [ev]) w''.

Definition init (SIZE : nat) (Xf Yf Zf : list coord) (c : cell_t) : world :=
  {| procs := (λ r, boot r SIZE Xf Yf Zf c) <$> seq 0 SIZE; net := [] |}.

Definition finished (w : world) : Prop :=
  Forall (λ p, pc p = L_done) (procs w).

(** The sends of a trace as (source, destination, payload), the receives
    as (receiver, source, payload), both in trace order. *)
Definition sends (tr : list event) : list (nat * nat * Message) :=
  omap (λ ev, match ev with EvSend s d m => Some (s, d, m) | _ => None end) tr.

Definition recvs (tr : list event) : list (nat * nat * Message) :=
  omap (λ ev, match ev with EvRecv d s m => Some (d, s, m) | _ => None end) tr.

Definition barriers (tr : list event) : nat :=
  length (omap (λ ev, match ev with EvBarrier => Some () | _ => None end) tr).

(** *** Pairing of contacts and rows *)

Definition of_message (m : Message) : RecExtElectrode :=
  let '(mx, my, mz, mlfp) := m in {| x := mx; y := my; z := mz; LFP := mlfp |}.

(** Row [j] of the potential matrix next to the contact [(x[j], y[j], z[j])]. *)
Definition pairing (e : RecExtElectrode) : list (coord * coord * coord * row) :=
  zip (contacts e) (LFP e).

Definition aligned (e : RecExtElectrode) : Prop :=
  length (x e) = length (y e) ∧ length (y e) = length (z e) ∧
  length (z e) = length (LFP e).

(** *** The worlds a run passes through *)

Section Reachable.
Variables (SIZE : nat) (Xf Yf Zf : list coord) (c : cell_t).

Definition start (r : nat) : proc := boot r SIZE Xf Yf Zf c.

(** A rank that got through the simulation holds its electrode and an
    empty [results]. *)
Definition ready (e : RecExtElectrode) : Namespace :=
  {| electrode := Some e; results := Some []; result := None; i := None;
     cell := c |}.

(** What rank [r] sends, if it gets that far. *)
Definition outgoing (r : nat) : Message :=
  from_option message_of ([], [], [], []) (electrode (ns (start r))).

Definition sent (r : nat) : proc :=
  {| pc := L_barrier;
     ns := {| electrode := None; results := None; result := Some (outgoing r);
              i := None; cell := c |} |}.

(** Rank 0 after it has received from the ranks [arr], in that order. *)
Definition root_at (arr : list nat) : proc :=
  foldl (λ p r, default p (on_recv p (outgoing r))) (start 0) arr.

(** [fl] are the ranks whose message is in flight, [arr] those whose
    message has arrived. *)
Definition proc_at (fl arr : list nat) (r : nat) : proc :=
  if decide (r = 0) then root_at arr
  else if decide (r ∈ fl ++ arr) then sent r
  else start r.

Definition packet (r : nat) : nat * nat * Message := (r, 0, outgoing r).

Definition gathering (fl arr : list nat) : world :=
  {| procs := proc_at fl arr <$> seq 0 SIZE; net := packet <$> fl |}.

Definition gathered (arr : list nat) : world :=
  {| procs := imap after_barrier (procs (gathering [] arr)); net := [] |}.

Record gather_trace (fl arr : list nat) (tr : list event) : Prop := {
  gt_NoDup : NoDup (fl ++ arr);
  gt_ranks : ∀ r, r ∈ fl ++ arr → 1 ≤ r < SIZE ∧ pc (start r) = L_send;
  gt_sends : sends tr ≡ₚ packet <$> (fl ++ arr);
  gt_recvs : recvs tr = (λ r, (0, r, outgoing r)) <$> arr;
  gt_barriers : barriers tr = 0
}.

Inductive reached : list event → world → Prop :=
| reached_gathering fl arr tr :
    gather_trace fl arr tr → reached tr (gathering fl arr)
| reached_gathered arr tr :
    gather_trace [] arr tr → arr ≡ₚ seq 1 (SIZE - 1) →
    pc (root_at arr) = L_barrier →
    reached (tr ++ [EvBarrier]) (gathered arr).

(** The run in which the ranks [arr] send in that order, rank 0 receives
    in that order, and the barrier follows. *)
Definition schedule (arr : list nat) : list event :=
  ((λ r, EvSend r 0 (outgoing r)) <$> arr)
  ++ ((λ r, EvRecv 0 r (outgoing r)) <$> arr)
  ++ [EvBarrier].

(** No rank raised before its first MPI call. *)
Definition all_started : Prop :=
  Forall (λ r, ∃ e, ns (start r) = ready e) (seq 0 SIZE).

End Reachable.

End Script.

Arguments RecExtElectrode : clear implicits.
Arguments Message : clear implicits.
Arguments Namespace : clear implicits.
Arguments label : clear implicits.
Arguments proc : clear implicits.
Arguments world : clear implicits.
Arguments event : clear implicits.

(** ** The forward model *)

(** Modelled from the spec: the script calls the forward model through
    [LFPy.RecExtElectrode] and [cell.simulate] and holds none of it; this
    module follows the ForwardModelSolver of the spec, with real numbers
    for the floating-point values. *)
Module ForwardModel.
Section Solver.
Local Open Scope R_scope.

(** Modelled from the spec: an evaluation point, a 3D coordinate. *)
Definition point : Type := (R * R * R)%type.

(** Modelled from the spec: the vector operations behind "distance". *)
Definition minus (p q : point) : point :=
  (p.1.1 - q.1.1, p.1.2 - q.1.2, p.2 - q.2).

(** Modelled from the spec: the scalar product, for "distance". *)
Definition dot (p q : point) : R :=
  p.1.1 * q.1.1 + p.1.2 * q.1.2 + p.2 * q.2.

(** Modelled from the spec: the point of the segment [a b] at parameter
    [t], its midpoint at [1/2]. *)
Definition along (a b : point) (t : R) : point :=
  (a.1.1 + t * (b.1.1 - a.1.1), a.1.2 + t * (b.1.2 - a.1.2), a.2 + t * (b.2 - a.2)).

(** Modelled from the spec: [distance(p, midpoint)]. *)
Definition distance (p q : point) : R := sqrt (dot (minus p q) (minus p q)).

(** Modelled from the spec: a compartment is a segment (start point, end
    point, diameter) that owns a current time series; the script only sees
    them inside the LFPy cell object. *)
Record Compartment : Type := {
  c_start : point;
  c_end : point;
  c_diam : R;
  c_imem : list R
}.

(** Modelled from the spec: the enumerated source-model selector. *)
Inductive SourceModel : Set := PointSource | LineSource | SomaAsPoint.

(** Modelled from the spec: the morphology, an ordered sequence of
    compartments of which one is the soma, with the shared timestep grid
    and the configured radius of the soma sphere. *)
Record Cell : Type := {
  compartments : list Compartment;
  soma : nat;
  timesteps : nat;
  r_soma : R
}.

(** Modelled from the spec: the midpoint of a compartment, the centre of
    the soma. *)
Definition midpoint (cm : Compartment) : point := along (c_start cm) (c_end cm) (1 / 2).

(** Modelled from the spec: the distance from [p] to the nearest point of
    the segment [a b], zero exactly when [p] lies on the segment. *)
Definition distance_to_segment (a b p : point) : R :=
  let d := minus b a in
  let t := if Req_dec_T (dot d d) 0 then 0
           else Rmax 0 (Rmin 1 (dot (minus p a) d / dot d d)) in
  distance p (along a b t).

Variable sigma : R.
Variable method : SourceModel.

(** Modelled from the spec: the spec names the closed form of the
    line-source integral of [1 / distance] over the segment but does not
    spell it out; this is that geometric factor of (start, end, point). *)
Variable line_kernel : point → point → point → R.

(** Modelled from the spec: which compartments are treated as a point
    source at their midpoint: all of them for point-source, none for
    line-source, and for soma-as-point the soma alone, for points within
    the configured radius of its centre. *)
Definition as_point (cell : Cell) (k : nat) (cm : Compartment) (p : point) : bool :=
  match method with
  | PointSource => true
  | LineSource => false
  | SomaAsPoint =>
      Nat.eqb k (soma cell) &&
      (if Rle_dec (distance p (midpoint cm)) (r_soma cell) then true else false)
  end.

(** Modelled from the spec: the distance from the point to the source
    geometry of the compartment, zero where the source models are
    undefined. *)
Definition source_distance (cell : Cell) (k : nat) (cm : Compartment) (p : point) : R :=
  if as_point cell k cm p then distance p (midpoint cm)
  else distance_to_segment (c_start cm) (c_end cm) p.

(** Modelled from the spec: the factor that multiplies [I(t)] in the
    contribution of one compartment, or DegenerateGeometryError at zero
    distance. *)
Definition geometry (cell : Cell) (p : point) (kc : nat * Compartment) : exn R :=
  if Req_dec_T (source_distance cell kc.1 kc.2 p) 0
  then raise DegenerateGeometryError
  else ret (if as_point cell kc.1 kc.2 p then / distance p (midpoint kc.2)
            else line_kernel (c_start kc.2) (c_end kc.2) p).

(** Modelled from the spec: [I(t)] of a compartment. *)
Definition current (cm : Compartment) (t : nat) : R := nth t (c_imem cm) 0.

(** Modelled from the spec: the sum over the compartments of the
    contributions [I(t) * factor] at timestep [t]. *)
Fixpoint superpose (cms : list Compartment) (gs : list R) (t : nat) : R :=
  match cms, gs with
  | cm :: cms', g :: gs' => current cm t * g + superpose cms' gs' t
  | _, _ => 0
  end.

(** Modelled from the spec:
    [V(p,t) = (1 / (4 pi sigma)) * sum over compartments of contribution],
    for every timestep; ConfigurationError for a conductivity that is not
    positive. *)
Definition potential (cell : Cell) (p : point) : exn (list R) :=
  if Rle_dec sigma 0 then raise ConfigurationError
  else
    do gs <- for_all (geometry cell p) (imap pair (compartments cell)) ;;
    ret ((λ t, 1 / (4 * PI * sigma) * superpose (compartments cell) gs t)
           <$> seq 0 (timesteps cell)).

(** Modelled from the spec: every compartment's current trace times [k]. *)
Definition scale_currents (k : R) (cell : Cell) : Cell :=
  {| compartments :=
       (λ cm, {| c_start := c_start cm; c_end := c_end cm; c_diam := c_diam cm;
                 c_imem := Rmult k <$> c_imem cm |}) <$> compartments cell;
     soma := soma cell; timesteps := timesteps cell; r_soma := r_soma cell |}.

End Solver.

(** Lines 81 and 85: ['sigma' : 0.3] and ['method' : 'som_as_point']. *)
Definition script_sigma : R := 3 / 10.
Definition script_method : SourceModel := SomaAsPoint.

End ForwardModel.

(** * Properties *)

(** ** The definitions on small inputs *)

Example slice_odd : slice 1 2 [10; 20; 30; 40; 50] = Some [20; 40].
Proof. reflexivity. Qed.

Example slice_start_beyond : slice 3 4 [1; 2; 3] = Some [].
Proof. reflexivity. Qed.

Example slice_step_zero : slice 0 0 [1; 2; 3] = None.
Proof. reflexivity. Qed.

Example grid_X_head :
  take 12 (Grid.flatten Grid.X)
  = [-50; -50; -50; -50; -50; -50; -50; -50; -50; -50; -50; -40]%Z.
Proof. reflexivity. Qed.

Example grid_Z_head :
  take 12 (Grid.flatten Grid.Z_)
  = [-50; -40; -30; -20; -10; 0; 10; 20; 30; 40; 50; -50]%Z.
Proof. reflexivity. Qed.

Example grid_Y_zero : Grid.flatten Grid.Y = replicate 121 0%Z.
Proof. reflexivity. Qed.

(** Two ranks and three contacts: rank 1 sends its one contact, rank 0
    appends it to its own two. *)
Example two_ranks_three_contacts :
  let pot := λ (_ : unit) (pt : nat * nat * nat), @inr error nat (pt.1.1 + 100) in
  procs (gathered pot 2 [0; 1; 2] [0; 0; 0] [5; 6; 7] () [1])
  = [ {| pc := L_done;
         ns := {| electrode := Some {| x := [0; 2; 1]; y := [0; 0; 0];
                                       z := [5; 7; 6]; LFP := [100; 102; 101] |};
                  results := Some [([1], [0], [6], [101])];
                  result := Some ([1], [0], [6], [101]);
                  i := Some 1; cell := () |} |};
      {| pc := L_done;
         ns := {| electrode := None; results := None;
                  result := Some ([1], [0], [6], [101]);
                  i := None; cell := () |} |} ].
Proof. reflexivity. Qed.



Section SliceFacts.
Context {A : Type}.
Implicit Types (a : list A) (W r k : nat).

Lemma stride_lookup W r a k :
  1 ≤ W → stride W r a !! k = a !! (r + k * W).
Proof.
  intros HW. revert r k.
  induction a as [|v a IH]; intros r k; [done|].
  destruct r as [|r]; simpl.
  - destruct k as [|k]; [done|].
    simpl. rewrite IH.
    replace (W + k * W) with (S (W - 1 + k * W)) by lia. done.
  - by rewrite IH.
Qed.

Lemma stride_nil_ge W r a : length a ≤ r → stride W r a = [].
Proof.
  revert r. induction a as [|v a IH]; intros r Hr; [done|].
  destruct r as [|r]; simpl in *; [lia|]. apply IH. lia.
Qed.

Lemma stride_one a : stride 1 0 a = a.
Proof. induction a as [|v a IH]; [done|]. simpl. by rewrite IH. Qed.

Lemma slice_is_Some W r a : 1 ≤ W → slice r W a = Some (stride W r a).
Proof.
  intros HW. unfold slice.
  destruct (Nat.eqb_spec W 0); [lia|done].
Qed.

Lemma slice_full a : slice 0 1 a = Some a.
Proof. unfold slice. simpl. by rewrite stride_one. Qed.

End SliceFacts.

Lemma stride_fmap {A B} (f : A → B) W r (a : list A) :
  stride W r (f <$> a) = f <$> stride W r a.
Proof.
  revert r. induction a as [|v a IH]; intros r; [done|].
  destruct r as [|r]; simpl; by rewrite IH.
Qed.

(** ** Round-robin partition of an array *)

Section PartitionFacts.
Context {A : Type}.
Implicit Types (a : list A) (W r k : nat).

Lemma stride_cons_succ W r v a : stride W (S r) (v :: a) = stride W r a.
Proof. done. Qed.

Lemma stride_cons_zero W v a : stride W 0 (v :: a) = v :: stride W (W - 1) a.
Proof. done. Qed.

(** The [W] slices of [v :: a] are those of [a], moved one rank up, with
    [v] put in front of the one that wraps around to rank 0. *)
Lemma strides_cons n v a :
  (λ r, stride (S n) r (v :: a)) <$> seq 0 (S n)
  = (v :: stride (S n) n a) :: ((λ r, stride (S n) r a) <$> seq 0 n).
Proof.
  cbn [seq fmap list_fmap]. rewrite stride_cons_zero.
  replace (S n - 1) with n by lia. f_equal.
  rewrite <- fmap_S_seq, <- list_fmap_compose.
  by apply list_fmap_ext.
Qed.

Lemma strides_union W a :
  1 ≤ W → mjoin ((λ r, stride W r a) <$> seq 0 W) ≡ₚ a.
Proof.
  destruct W as [|n]; [lia|]. intros _.
  induction a as [|v a IH].
  - simpl. generalize (seq 1 n). intros l. by induction l.
  - rewrite strides_cons. simpl. constructor.
    etrans; [|exact IH].
    rewrite seq_S, fmap_app, join_app. simpl.
    rewrite app_nil_r. apply Permutation_app_comm.
Qed.

Lemma stride_indices W r a :
  1 ≤ W →
  Forall2 (λ j v, a !! j = Some v) (stride W r (seq 0 (length a))) (stride W r a).
Proof.
  intros HW. apply Forall2_lookup. intros k.
  rewrite !stride_lookup by done.
  destruct (decide (r + k * W < length a)) as [Hlt|Hge].
  - rewrite lookup_seq_lt by done.
    destruct (lookup_lt_is_Some_2 a (r + k * W) Hlt) as [v Hv].
    rewrite Hv. by constructor.
  - rewrite lookup_seq_ge by lia.
    rewrite (lookup_ge_None_2 a) by lia. constructor.
Qed.

End PartitionFacts.

Lemma elem_of_stride_seq W r N j :
  1 ≤ W → r < W → j ∈ stride W r (seq 0 N) ↔ j < N ∧ j mod W = r.
Proof.
  intros HW Hr. rewrite list_elem_of_lookup. split.
  - intros [k Hk]. rewrite stride_lookup in Hk by done.
    apply lookup_seq in Hk as [-> Hlt]. simpl. split; [done|].
    rewrite Nat.Div0.mod_add. by apply Nat.mod_small.
  - intros [Hj Hmod]. exists (j / W).
    rewrite stride_lookup by done.
    pose proof (Nat.div_mod_eq j W) as Hdm.
    replace (r + j / W * W) with j by lia.
    by rewrite lookup_seq_lt.
Qed.

Lemma NoDup_join_inv {A} (ls : list (list A)) :
  NoDup (mjoin ls) →
  Forall NoDup ls ∧
  ∀ i1 i2 l1 l2 v, ls !! i1 = Some l1 → ls !! i2 = Some l2 → i1 ≠ i2 →
                   v ∈ l1 → v ∈ l2 → False.
Proof.
  induction ls as [|l ls IH]; simpl.
  - intros _. split; [constructor|]. intros ? ? ? ? ? Hl. by rewrite lookup_nil in Hl.
  - intros [Hl [Hdisj Hrest]]%NoDup_app.
    destruct (IH Hrest) as [IH1 IH2]. split; [by constructor|].
    intros [|i1] [|i2] l1 l2 v H1 H2 Hne Hv1 Hv2; simplify_eq/=.
    + apply (Hdisj v Hv1). apply list_elem_of_join. exists l2.
      split; [done|]. by eapply list_elem_of_lookup_2.
    + apply (Hdisj v Hv2). apply list_elem_of_join. exists l1.
      split; [done|]. by eapply list_elem_of_lookup_2.
    + eapply (IH2 i1 i2); eauto.
Qed.

Lemma NoDup_stride_seq W r N : 1 ≤ W → r < W → NoDup (stride W r (seq 0 N)).
Proof.
  intros HW Hr.
  assert (NoDup (mjoin ((λ r, stride W r (seq 0 N)) <$> seq 0 W))) as Hnd.
  { rewrite strides_union by done. apply NoDup_seq. }
  apply NoDup_join_inv in Hnd as [Hall _].
  rewrite Forall_fmap, Forall_forall in Hall.
  apply (Hall r), elem_of_seq. lia.
Qed.

Lemma electrodeParameters_ok {coord} RANK SIZE (Xf Yf Zf : list coord) :
  1 ≤ SIZE →
  electrodeParameters RANK SIZE Xf Yf Zf
  = inr (stride SIZE RANK Xf, stride SIZE RANK Yf, stride SIZE RANK Zf).
Proof.
  intros HW. unfold electrodeParameters.
  by rewrite !slice_is_Some.
Qed.

(** C1: for [N >= 0] points and [W >= 1] workers, worker [r] is handed
    exactly the indices [j < N] with [j mod W = r] (and the coordinates at
    those indices); the [W] parts are pairwise disjoint, together they hold
    every index of [0..N-1] exactly once, and with [N < W] the workers from
    rank [N] on get an empty part, without an exception. *)
Theorem partition_round_robin {coord} (Xf Yf Zf : list coord) (N W : nat) :
  1 ≤ W → length Xf = N → length Yf = N → length Zf = N →
  let part := λ r, stride W r (seq 0 N) in
  (∀ r, r < W →
     slice r W (seq 0 N) = Some (part r) ∧
     (∀ j, j ∈ part r ↔ j < N ∧ j mod W = r) ∧
     NoDup (part r) ∧
     ∃ xs ys zs,
       electrodeParameters r W Xf Yf Zf = inr (xs, ys, zs) ∧
       Forall2 (λ j v, Xf !! j = Some v) (part r) xs ∧
       Forall2 (λ j v, Yf !! j = Some v) (part r) ys ∧
       Forall2 (λ j v, Zf !! j = Some v) (part r) zs) ∧
  (∀ r1 r2 j, r1 < W → r2 < W → r1 ≠ r2 → j ∈ part r1 → j ∉ part r2) ∧
  mjoin (part <$> seq 0 W) ≡ₚ seq 0 N ∧
  (N < W → ∀ r, N ≤ r → r < W →
     part r = [] ∧ electrodeParameters r W Xf Yf Zf = inr ([], [], [])).
Proof.
  intros HW HX HY HZ part. split; [|split; [|split]].
  - intros r Hr. split; [by apply slice_is_Some|].
    split; [intros j; by apply elem_of_stride_seq|].
    split; [by apply NoDup_stride_seq|].
    exists (stride W r Xf), (stride W r Yf), (stride W r Zf).
    split; [by apply electrodeParameters_ok|].
    subst part. simpl. split; [|split].
    + rewrite <- HX. by apply stride_indices.
    + rewrite <- HY. by apply stride_indices.
    + rewrite <- HZ. by apply stride_indices.
  - intros r1 r2 j H1 H2 Hne Hj1 Hj2.
    apply elem_of_stride_seq in Hj1 as [_ Hj1]; [|done..].
    apply elem_of_stride_seq in Hj2 as [_ Hj2]; [|done..].
    congruence.
  - by apply strides_union.
  - intros HN r HNr Hr. split.
    + apply stride_nil_ge. by rewrite length_seq.
    + rewrite electrodeParameters_ok by done.
      by rewrite !stride_nil_ge by lia.
Qed.

Lemma partition_round_robin_witness :
  1 ≤ 2 ∧
  mjoin ((λ r, stride 2 r (seq 0 3)) <$> seq 0 2) ≡ₚ seq 0 3 ∧
  electrodeParameters 1 2 [10; 20; 30] [0; 0; 0] [7; 8; 9] = inr ([20], [0], [8]).
Proof.
  split; [lia|].
  pose proof (partition_round_robin [10; 20; 30] [0; 0; 0] [7; 8; 9] 3 2
                ltac:(lia) eq_refl eq_refl eq_refl) as (_ & _ & Hunion & _).
  split; [exact Hunion|reflexivity].
Defined.

(** ** One rank *)

Section RankFacts.
Context {coord row cell_t : Type}.
Variable potential : cell_t → coord * coord * coord → exn row.
Variables (SIZE : nat) (Xf Yf Zf : list coord) (c : cell_t).

Local Abbreviation st := (start potential SIZE Xf Yf Zf c).
Local Abbreviation out := (outgoing potential SIZE Xf Yf Zf c).
Local Abbreviation snt := (sent potential SIZE Xf Yf Zf c).
Local Abbreviation root := (root_at potential SIZE Xf Yf Zf c).
Implicit Types (r s : nat) (arr fl : list nat) (e : RecExtElectrode coord row).

Lemma start_cases r :
  (∃ err n, st r = {| pc := L_raised err; ns := n |} ∧ results n = None) ∨
  (∃ e, st r = {| pc := if Nat.eqb r 0 then collect_from (xrange 1 SIZE)
                           else L_send;
                     ns := ready c e |}).
Proof.
  unfold start, boot.
  destruct (electrodeParameters r SIZE Xf Yf Zf) as [err|[[xs ys] zs]].
  { left. by eexists _, _. }
  destruct (simulate potential c _) as [err|e].
  { left. by eexists _, _. }
  right. exists e. by destruct (Nat.eqb r 0).
Qed.

Lemma collect_from_not_send todo : collect_from todo ≠ @L_send.
Proof. by destruct todo. Qed.

Lemma collect_from_not_done todo : collect_from todo ≠ @L_done.
Proof. by destruct todo. Qed.

Lemma collect_from_barrier todo : collect_from todo = @L_barrier ↔ todo = [].
Proof. by destruct todo. Qed.

(** A rank other than 0 starts at its send, unless it raised. *)
Lemma start_nonroot r :
  r ≠ 0 → pc (st r) = L_send ∨ ∃ err, pc (st r) = L_raised err.
Proof.
  intros Hr. destruct (start_cases r) as [(err & n & -> & _)|[e ->]]; simpl.
  - right. by exists err.
  - left. by destruct (Nat.eqb_spec r 0).
Qed.

Lemma on_send_start r m dest p' :
  on_send (st r) = Some (m, dest, p') →
  pc (st r) = L_send ∧ m = out r ∧ dest = 0 ∧ p' = snt r.
Proof.
  unfold on_send, outgoing, sent, outgoing.
  destruct (start_cases r) as [(err & n & -> & _)|[e ->]]; simpl; [done|].
  destruct (Nat.eqb r 0); simpl.
  - destruct (collect_from _); naive_solver.
  - naive_solver.
Qed.

Lemma on_send_start_2 r :
  r ≠ 0 → pc (st r) = L_send →
  on_send (st r) = Some (out r, 0, snt r).
Proof.
  intros Hr. unfold on_send, outgoing, sent, outgoing.
  destruct (start_cases r) as [(err & n & -> & _)|[e ->]]; simpl; [done|].
  by intros ->.
Qed.

(** *** Rank 0 while it collects *)

Lemma root_at_snoc arr s :
  root (arr ++ [s]) = default (root arr) (on_recv (root arr) (out s)).
Proof. unfold root_at. by rewrite foldl_snoc. Qed.

Lemma on_recv_pc (p p' : proc coord row cell_t) m :
  on_recv p m = Some p' →
  (∃ k todo, pc p = L_collect (k :: todo)) ∧
  ((∃ todo, pc p' = collect_from todo) ∨ ∃ err, pc p' = L_raised err).
Proof.
  unfold on_recv. destruct (pc p) as [[|k todo]| | | |]; try done.
  intros [= <-]. split; [by eauto|].
  destruct (results (ns p)); simpl; eauto.
Qed.

Lemma root_at_pc arr :
  (∃ todo, pc (root arr) = collect_from todo) ∨
  (∃ err, pc (root arr) = L_raised err).
Proof.
  induction arr as [|s arr IH] using rev_ind.
  - unfold root_at. simpl.
    destruct (start_cases 0) as [(err & n & -> & _)|[e ->]]; simpl; eauto.
  - rewrite root_at_snoc.
    destruct (on_recv (root arr) (out s)) as [p'|] eqn:Hrecv; [|done].
    apply on_recv_pc in Hrecv as [_ Hp']. done.
Qed.

Lemma root_at_not_send arr : pc (root arr) ≠ L_send.
Proof.
  destruct (root_at_pc arr) as [[todo ->]|[err ->]]; [|done].
  apply collect_from_not_send.
Qed.

(** The receive loop, unrolled: after [length arr] turns rank 0 holds the
    messages in the order they came, and [i] and [result] are those of the
    last turn. *)
Lemma root_at_ready e arr :
  st 0 = {| pc := collect_from (xrange 1 SIZE); ns := ready c e |} →
  length arr ≤ SIZE - 1 →
  root arr
  = {| pc := collect_from (drop (length arr) (xrange 1 SIZE));
       ns := {| electrode := Some e;
                results := Some (out <$> arr);
                result := last (out <$> arr);
                i := last (take (length arr) (xrange 1 SIZE));
                cell := c |} |}.
Proof.
  intros Hstart.
  induction arr as [|s arr IH] using rev_ind; intros Hlen.
  - unfold root_at. simpl. by rewrite Hstart, drop_0.
  - rewrite length_app in Hlen. simpl in Hlen.
    rewrite root_at_snoc, IH by lia. clear IH.
    assert (is_Some (xrange 1 SIZE !! length arr)) as [k Hk].
    { apply lookup_lt_is_Some. unfold xrange. rewrite length_seq. lia. }
    rewrite (drop_S _ _ _ Hk). unfold on_recv. simpl.
    rewrite length_app. simpl. rewrite Nat.add_1_r.
    rewrite (take_S_r _ _ _ Hk), fmap_app. simpl. by rewrite !last_snoc.
Qed.

Lemma root_at_raised err arr :
  pc (st 0) = L_raised err → root arr = st 0.
Proof.
  intros Hpc. induction arr as [|s arr IH] using rev_ind; [done|].
  rewrite root_at_snoc, IH. unfold on_recv. by rewrite Hpc.
Qed.

End RankFacts.

(** ** All ranks: the worlds a run can reach *)

Lemma insert_fmap_seq {B} (f g : nat → B) n r b :
  g r = b → (∀ k, k ≠ r → g k = f k) →
  <[r := b]> (f <$> seq 0 n) = g <$> seq 0 n.
Proof.
  intros Hr Hother. apply list_eq. intros k.
  destruct (decide (k = r)) as [->|Hne].
  - destruct (decide (r < n)) as [Hlt|Hge].
    + rewrite list_lookup_insert_eq by (by rewrite length_fmap, length_seq).
      by rewrite list_lookup_fmap, lookup_seq_lt, <- Hr.
    + rewrite list_insert_ge by (rewrite length_fmap, length_seq; lia).
      by rewrite !list_lookup_fmap, !lookup_seq_ge by lia.
  - rewrite list_lookup_insert_ne by done.
    rewrite !list_lookup_fmap. destruct (seq 0 n !! k) as [k'|] eqn:Hk; [|done].
    apply lookup_seq in Hk as [-> _]. simpl. by rewrite Hother.
Qed.

Lemma NoDup_ranks_length (l : list nat) n :
  NoDup l → (∀ r, r ∈ l → 1 ≤ r < S n) → length l ≤ n.
Proof.
  intros Hnd Hin.
  trans (length (seq 1 n)); [|by rewrite length_seq].
  apply submseteq_length, NoDup_submseteq; [done|].
  intros r Hr. apply elem_of_seq. specialize (Hin r Hr). lia.
Qed.

Section WorldFacts.
Context {coord row cell_t : Type}.
Variable potential : cell_t → coord * coord * coord → exn row.
Variables (SIZE : nat) (Xf Yf Zf : list coord) (c : cell_t).
Hypothesis SIZE_pos : 1 ≤ SIZE.

Local Abbreviation st := (start potential SIZE Xf Yf Zf c).
Local Abbreviation out := (outgoing potential SIZE Xf Yf Zf c).
Local Abbreviation snt := (sent potential SIZE Xf Yf Zf c).
Local Abbreviation root := (root_at potential SIZE Xf Yf Zf c).
Local Abbreviation at_ := (proc_at potential SIZE Xf Yf Zf c).
Local Abbreviation pkt := (packet potential SIZE Xf Yf Zf c).
Local Abbreviation during := (gathering potential SIZE Xf Yf Zf c).
Local Abbreviation done_ := (gathered potential SIZE Xf Yf Zf c).
Local Abbreviation traced := (gather_trace potential SIZE Xf Yf Zf c).
Local Abbreviation reach := (reached potential SIZE Xf Yf Zf c).
Implicit Types (r s : nat) (arr fl : list nat) (tr : list (event coord row)).

Lemma init_gathering : init potential SIZE Xf Yf Zf c = during [] [].
Proof.
  unfold init, gathering. f_equal. apply list_fmap_ext. intros _ r _.
  unfold proc_at. destruct (decide (r = 0)) as [->|]; [done|].
  rewrite decide_False; [done|]. simpl. apply not_elem_of_nil.
Qed.

Lemma gathering_lookup fl arr r p :
  procs (during fl arr) !! r = Some p → r < SIZE ∧ p = at_ fl arr r.
Proof.
  unfold gathering. simpl. rewrite list_lookup_fmap.
  destruct (seq 0 SIZE !! r) as [k|] eqn:Hk; [|done].
  apply lookup_seq in Hk as [-> Hlt]. by intros [= <-].
Qed.

Lemma gathering_lookup_2 fl arr r :
  r < SIZE → procs (during fl arr) !! r = Some (at_ fl arr r).
Proof.
  intros Hr. unfold gathering. simpl.
  by rewrite list_lookup_fmap, lookup_seq_lt.
Qed.

Lemma on_send_pc (p : proc coord row cell_t) o : on_send p = Some o → pc p = L_send.
Proof. unfold on_send. by destruct (pc p). Qed.

Lemma after_barrier_pc r (p : proc coord row cell_t) :
  pc (after_barrier r p) = L_done ∨ ∃ err, pc (after_barrier r p) = L_raised err.
Proof.
  unfold after_barrier. destruct (Nat.eqb r 0); [|by left].
  destruct (results (ns p)); [|by eauto].
  destruct (for_each _ _ _); by eauto.
Qed.

Lemma traced_empty : traced [] [] [].
Proof.
  split; simpl; try done; [constructor|]. intros r Hr. by apply elem_of_nil in Hr.
Qed.

Lemma sends_snoc tr ev : sends (tr ++ [ev]) = sends tr ++ sends [ev].
Proof. apply omap_app. Qed.

Lemma recvs_snoc tr ev : recvs (tr ++ [ev]) = recvs tr ++ recvs [ev].
Proof. apply omap_app. Qed.

Lemma barriers_snoc tr ev : barriers (tr ++ [ev]) = barriers tr + barriers [ev].
Proof. unfold barriers. by rewrite omap_app, length_app. Qed.

Lemma proc_at_pc_collect fl arr r k todo :
  pc (at_ fl arr r) = L_collect (k :: todo) → r = 0.
Proof.
  unfold proc_at. destruct (decide (r = 0)) as [->|Hr]; [done|].
  destruct (decide (r ∈ fl ++ arr)); [done|].
  by destruct (start_nonroot potential SIZE Xf Yf Zf c r Hr) as [->|[err ->]].
Qed.

(** A send moves the sender's rank into flight. *)
Lemma gathering_send fl arr r :
  r ≠ 0 → r ∉ fl ++ arr →
  {| procs := <[r := snt r]> (procs (during fl arr));
     net := net (during fl arr) ++ [(r, 0, out r)] |}
  = during (fl ++ [r]) arr.
Proof.
  intros Hr Hnew. unfold gathering. simpl. f_equal.
  - apply insert_fmap_seq; unfold proc_at.
    + rewrite decide_False by done. rewrite decide_True; [done|].
      rewrite !elem_of_app, list_elem_of_singleton. auto.
    + intros k Hk. destruct (decide (k = 0)); [done|].
      apply decide_ext. rewrite !elem_of_app, list_elem_of_singleton.
      intuition congruence.
  - by rewrite fmap_app.
Qed.

(** A receive moves a rank from flight to the arrived ones. *)
Lemma gathering_recv fl1 fl2 arr s p' :
  on_recv (root arr) (out s) = Some p' →
  {| procs := <[0 := p']> (procs (during (fl1 ++ s :: fl2) arr));
     net := (pkt <$> fl1) ++ (pkt <$> fl2) |}
  = during (fl1 ++ fl2) (arr ++ [s]).
Proof.
  intros Hrecv. unfold gathering. simpl. f_equal.
  - apply insert_fmap_seq; unfold proc_at.
    + rewrite decide_True by done.
      by rewrite (root_at_snoc potential), Hrecv.
    + intros k Hk. destruct (decide (k = 0)); [done|].
      apply decide_ext. rewrite !elem_of_app, !elem_of_cons, elem_of_nil.
      tauto.
  - by rewrite fmap_app.
Qed.

Lemma gathering_step fl arr tr ev w :
  traced fl arr tr → step (during fl arr) ev w → reach (tr ++ [ev]) w.
Proof.
  intros [Hnd Hranks Hs Hr Hb] Hstep.
  inversion Hstep as [r p m dest p' Hp Hsend|r p src m p' n1 n2 Hp Hnet Hrecv|Hall];
    subst; clear Hstep.
  - (* send *)
    apply gathering_lookup in Hp as [Hlt ->].
    assert (r ≠ 0) as Hr0.
    { intros ->. apply on_send_pc in Hsend. unfold proc_at in Hsend.
      rewrite decide_True in Hsend by done.
      by apply (root_at_not_send potential) in Hsend. }
    assert (r ∉ fl ++ arr) as Hnew.
    { intros Hin. unfold proc_at in Hsend.
      rewrite decide_False, decide_True in Hsend by done. done. }
    unfold proc_at in Hsend. rewrite !decide_False in Hsend by done.
    apply on_send_start in Hsend as (Hpc & -> & -> & ->).
    rewrite gathering_send by done. constructor. split.
    + rewrite <- (assoc_L (++)). simpl.
      apply NoDup_app. apply NoDup_app in Hnd as (Hfl & Hdisj & Harr).
      split; [done|]. split; [|constructor; [|done]].
      * intros v Hv [->|Hv']%elem_of_cons; [|by eapply Hdisj].
        apply Hnew, elem_of_app. auto.
      * intros Hin. apply Hnew, elem_of_app. auto.
    + intros v. rewrite !elem_of_app, list_elem_of_singleton.
      intros [[Hv| ->]|Hv]; [apply Hranks, elem_of_app; auto|split; [lia|done]|
                             apply Hranks, elem_of_app; auto].
    + rewrite sends_snoc, Hs. simpl.
      rewrite !fmap_app. simpl.
      rewrite <- !(assoc_L (++)). apply Permutation_app_head.
      apply Permutation_app_comm.
    + by rewrite recvs_snoc, Hr, app_nil_r.
    + by rewrite barriers_snoc, Hb.
  - (* receive *)
    apply gathering_lookup in Hp as [Hlt ->].
    pose proof Hrecv as [(k & todo & Hpc) _]%on_recv_pc.
    apply proc_at_pc_collect in Hpc as ->.
    unfold gathering in Hnet. simpl in Hnet.
    apply fmap_app_inv in Hnet as (fl1 & fl' & -> & Hfl' & ->).
    symmetry in Hfl'. apply fmap_cons_inv in Hfl' as (s & fl2 & Hpkt & -> & ->).
    unfold packet in Hpkt. injection Hpkt as -> ->.
    unfold proc_at in Hrecv. rewrite decide_True in Hrecv by done.
    rewrite (gathering_recv _ _ _ _ _ Hrecv). constructor.
    assert ((fl1 ++ fl2) ++ arr ++ [s] ≡ₚ (fl1 ++ s :: fl2) ++ arr) as Hperm.
    { rewrite <- !(assoc_L (++)). apply Permutation_app_head.
      rewrite (assoc_L (++)), <- Permutation_cons_append. done. }
    split.
    + by rewrite Hperm.
    + intros v Hv. apply Hranks. by rewrite <- Hperm.
    + by rewrite sends_snoc, Hs, app_nil_r, Hperm.
    + rewrite recvs_snoc, Hr, fmap_app. done.
    + by rewrite barriers_snoc, Hb.
  - (* barrier *)
    assert (∀ r, r < SIZE → pc (at_ fl arr r) = L_barrier) as Hpcs.
    { intros r Hr'. rewrite Forall_lookup in Hall.
      by apply (Hall r), gathering_lookup_2. }
    assert (∀ r, 1 ≤ r < SIZE → r ∈ fl ++ arr) as Hsent.
    { intros r Hr'. specialize (Hpcs r ltac:(lia)). unfold proc_at in Hpcs.
      rewrite decide_False in Hpcs by lia.
      destruct (decide (r ∈ fl ++ arr)); [done|].
      by destruct (start_nonroot potential SIZE Xf Yf Zf c r ltac:(lia))
        as [Hpc|[err Hpc]]; rewrite Hpc in Hpcs. }
    assert (fl ++ arr ≡ₚ seq 1 (SIZE - 1)) as Hperm.
    { apply NoDup_Permutation; [done|apply NoDup_seq|].
      intros r. rewrite elem_of_seq. split.
      - intros Hin. apply Hranks in Hin. lia.
      - intros Hin. apply Hsent. lia. }
    specialize (Hpcs 0 ltac:(lia)) as Hroot. unfold proc_at in Hroot.
    rewrite decide_True in Hroot by done.
    assert (length arr ≤ SIZE - 1) as Hlen.
    { apply NoDup_ranks_length; [by apply NoDup_app in Hnd as (_ & _ & ?)|].
      intros r Hin. replace (S (SIZE - 1)) with SIZE by lia.
      apply Hranks, elem_of_app. auto. }
    assert (length arr = SIZE - 1) as Hfull.
    { destruct (start_cases potential SIZE Xf Yf Zf c 0)
        as [(err & n & Hst & _)|[e Hst]].
      - rewrite (root_at_raised potential _ _ _ _ _ err) in Hroot
          by (by rewrite Hst).
        by rewrite Hst in Hroot.
      - rewrite (root_at_ready potential _ _ _ _ _ e) in Hroot by done.
        simpl in Hroot. apply collect_from_barrier in Hroot.
        apply (f_equal length) in Hroot. rewrite length_drop in Hroot.
        unfold xrange in Hroot. rewrite length_seq in Hroot. simpl in Hroot. lia. }
    assert (fl = []) as ->.
    { apply Permutation_length in Hperm.
      rewrite length_app, length_seq in Hperm.
      apply length_zero_iff_nil. lia. }
    simpl in *. by constructor.
Qed.

Lemma gathered_stuck arr ev w : step (done_ arr) ev w → False.
Proof.
  assert (∀ r p, procs (done_ arr) !! r = Some p →
                 pc p = L_done ∨ ∃ err, pc p = L_raised err) as Hpcs.
  { intros r p. unfold gathered. simpl. rewrite list_lookup_imap.
    destruct (_ !! r); simpl; [|done]. intros [= <-]. apply after_barrier_pc. }
  inversion 1 as [r p m dest p' Hp Hsend|r p src m p' n1 n2 Hp Hnet Hrecv|Hall];
    subst.
  - apply on_send_pc in Hsend. by destruct (Hpcs _ _ Hp) as [Hpc|[err Hpc]];
      rewrite Hpc in Hsend.
  - apply on_recv_pc in Hrecv as [(k & todo & Hc) _].
    by destruct (Hpcs _ _ Hp) as [Hpc|[err Hpc]]; rewrite Hpc in Hc.
  - assert (is_Some (procs (done_ arr) !! 0)) as [p Hp].
    { apply lookup_lt_is_Some. unfold gathered, gathering. simpl.
      rewrite length_imap, length_fmap, length_seq. lia. }
    rewrite Forall_lookup in Hall. pose proof (Hall _ _ Hp) as Hb.
    by destruct (Hpcs _ _ Hp) as [Hpc|[err Hpc]]; rewrite Hpc in Hb.
Qed.

(** Every run from the initial world is in one of the two shapes. *)
Lemma run_reached tr w :
  run (init potential SIZE Xf Yf Zf c) tr w → reach tr w.
Proof.
  induction 1 as [|tr w ev w' Hrun IH Hstep].
  - rewrite init_gathering. constructor. apply traced_empty.
  - destruct IH as [fl arr tr Htr|arr tr Htr Hperm Hpc].
    + by eapply gathering_step.
    + by apply gathered_stuck in Hstep.
Qed.

End WorldFacts.

(** ** Runs that complete *)

Lemma run_app {coord row cell_t} (w w1 w2 : world coord row cell_t) tr1 tr2 :
  run w tr1 w1 → run w1 tr2 w2 → run w (tr1 ++ tr2) w2.
Proof.
  intros H1 H2. induction H2 as [|tr w' ev w'' _ IH Hstep].
  - by rewrite app_nil_r.
  - rewrite (assoc_L (++)). by econstructor.
Qed.

Lemma for_each_merge_step {coord row cell_t} (n : Namespace coord row cell_t) e rs :
  electrode n = Some e →
  for_each merge_step n rs
  = inr {| electrode := Some (merge e rs); results := results n;
           result := from_option Some (result n) (last rs);
           i := i n; cell := cell n |}.
Proof.
  revert n e. induction rs as [|r rs IH]; intros n e He; simpl.
  - destruct n. simpl in *. by subst.
  - unfold merge_step at 1. rewrite He. simpl.
    erewrite IH by done. simpl. do 2 f_equal.
    rewrite last_cons. by destruct (last rs).
Qed.

Section CompleteRuns.
Context {coord row cell_t : Type}.
Variable potential : cell_t → coord * coord * coord → exn row.
Variables (SIZE : nat) (Xf Yf Zf : list coord) (c : cell_t).
Hypothesis SIZE_pos : 1 ≤ SIZE.

Local Abbreviation st := (start potential SIZE Xf Yf Zf c).
Local Abbreviation out := (outgoing potential SIZE Xf Yf Zf c).
Local Abbreviation snt := (sent potential SIZE Xf Yf Zf c).
Local Abbreviation root := (root_at potential SIZE Xf Yf Zf c).
Local Abbreviation at_ := (proc_at potential SIZE Xf Yf Zf c).
Local Abbreviation pkt := (packet potential SIZE Xf Yf Zf c).
Local Abbreviation during := (gathering potential SIZE Xf Yf Zf c).
Local Abbreviation done_ := (gathered potential SIZE Xf Yf Zf c).
Local Abbreviation traced := (gather_trace potential SIZE Xf Yf Zf c).
Local Abbreviation reach := (reached potential SIZE Xf Yf Zf c).
Local Abbreviation world0 := (init potential SIZE Xf Yf Zf c).
Implicit Types (r s : nat) (arr fl : list nat) (tr : list (event coord row)).

(** What rank 0 holds once the barrier has let it through. *)
Lemma root_done e arr :
  st 0 = {| pc := collect_from (xrange 1 SIZE); ns := ready c e |} →
  length arr ≤ SIZE - 1 →
  after_barrier 0 (root arr)
  = {| pc := L_done;
       ns := {| electrode := Some (merge e (out <$> arr));
                results := Some (out <$> arr);
                result := last (out <$> arr);
                i := last (take (length arr) (xrange 1 SIZE));
                cell := c |} |}.
Proof.
  intros Hst Hlen. rewrite (root_at_ready potential _ _ _ _ _ e) by done.
  unfold after_barrier. simpl.
  erewrite for_each_merge_step by done. simpl.
  by destruct (last (out <$> arr)).
Qed.

Lemma root_barrier_inv arr :
  pc (root arr) = L_barrier → length arr ≤ SIZE - 1 →
  length arr = SIZE - 1 ∧
  ∃ e, st 0 = {| pc := collect_from (xrange 1 SIZE); ns := ready c e |}.
Proof.
  intros Hroot Hlen.
  destruct (start_cases potential SIZE Xf Yf Zf c 0)
    as [(err & n & Hst & _)|[e Hst]].
  - rewrite (root_at_raised potential _ _ _ _ _ err) in Hroot by (by rewrite Hst).
    by rewrite Hst in Hroot.
  - split; [|by exists e].
    rewrite (root_at_ready potential _ _ _ _ _ e) in Hroot by done.
    simpl in Hroot. apply collect_from_barrier in Hroot.
    apply (f_equal length) in Hroot. rewrite length_drop in Hroot.
    unfold xrange in Hroot. rewrite length_seq in Hroot. simpl in Hroot. lia.
Qed.

Lemma traced_arrived_length fl arr tr : traced fl arr tr → length arr ≤ SIZE - 1.
Proof.
  intros [Hnd Hranks _ _ _].
  apply NoDup_ranks_length; [by apply NoDup_app in Hnd as (_ & _ & ?)|].
  intros r Hin. replace (S (SIZE - 1)) with SIZE by lia.
  apply Hranks, elem_of_app. auto.
Qed.

Lemma all_started_inv r :
  all_started potential SIZE Xf Yf Zf c → r < SIZE →
  ∃ e, st r = {| pc := if Nat.eqb r 0 then collect_from (xrange 1 SIZE) else L_send;
                 ns := ready c e |}.
Proof.
  intros Hall Hr. unfold all_started in Hall. rewrite Forall_forall in Hall.
  destruct (Hall r) as [e He]; [apply elem_of_seq; lia|].
  destruct (start_cases potential SIZE Xf Yf Zf c r)
    as [(err & n & Hst & Hres)|[e' Hst]].
  - rewrite Hst in He. simpl in He. by subst n.
  - by exists e'.
Qed.

Lemma run_sends l :
  NoDup l → (∀ r, r ∈ l → 1 ≤ r < SIZE ∧ pc (st r) = L_send) →
  run world0 ((λ r, EvSend r 0 (out r)) <$> l) (during l []).
Proof.
  induction l as [|r l IH] using rev_ind; intros Hnd Hl.
  - rewrite init_gathering. constructor.
  - apply NoDup_app in Hnd as (Hnd & Hnew & _).
    assert (r ∉ l) as Hr.
    { intros Hin. apply (Hnew r Hin). by left. }
    destruct (Hl r) as [Hrange Hpc]; [apply elem_of_app; right; by left|].
    rewrite fmap_app. simpl.
    rewrite <- gathering_send by (rewrite ?app_nil_r; done || lia).
    eapply run_snoc.
    + apply IH; [done|]. intros v Hv. apply Hl, elem_of_app. auto.
    + eapply step_send.
      * rewrite (gathering_lookup_2 potential) by lia.
        unfold proc_at. rewrite !decide_False; [done| |lia].
        by rewrite app_nil_r.
      * apply on_send_start_2; [lia|done].
Qed.

Lemma on_recv_ready e arr m :
  st 0 = {| pc := collect_from (xrange 1 SIZE); ns := ready c e |} →
  length arr < SIZE - 1 →
  is_Some (on_recv (root arr) m).
Proof.
  intros Hst Hlen. rewrite (root_at_ready potential _ _ _ _ _ e) by (done || lia).
  assert (is_Some (xrange 1 SIZE !! length arr)) as [k Hk].
  { apply lookup_lt_is_Some. unfold xrange. rewrite length_seq. lia. }
  rewrite (drop_S _ _ _ Hk). unfold on_recv. simpl. eauto.
Qed.

Lemma run_recvs e l :
  st 0 = {| pc := collect_from (xrange 1 SIZE); ns := ready c e |} →
  ∀ fl arr, length arr + length l ≤ SIZE - 1 →
  run (during (l ++ fl) arr) ((λ r, EvRecv 0 r (out r)) <$> l) (during fl (arr ++ l)).
Proof.
  intros Hst. induction l as [|s l IH] using rev_ind; intros fl arr Hlen.
  - rewrite app_nil_r. constructor.
  - rewrite length_app in Hlen. simpl in Hlen.
    rewrite fmap_app, <- (assoc_L (++) l). simpl.
    destruct (on_recv_ready e (arr ++ l) (out s) Hst) as [p' Hp'].
    { rewrite length_app. lia. }
    eapply run_snoc; [apply IH; lia|].
    pose proof (gathering_recv potential SIZE Xf Yf Zf c [] fl (arr ++ l) s p' Hp')
      as Hw.
    rewrite (assoc_L (++) arr). change ([] ++ fl) with fl in Hw. rewrite <- Hw.
    eapply (step_recv _ 0 _ s (out s) p' []); [|done|done].
    rewrite (gathering_lookup_2 potential) by lia. done.
Qed.

Lemma barrier_enabled e arr :
  st 0 = {| pc := collect_from (xrange 1 SIZE); ns := ready c e |} →
  arr ≡ₚ seq 1 (SIZE - 1) →
  Forall (λ p, pc p = L_barrier) (procs (during [] arr)).
Proof.
  intros Hst Hperm. unfold gathering. simpl.
  rewrite Forall_fmap. apply Forall_forall. intros r [_ Hr]%elem_of_seq.
  simpl in *. unfold proc_at. destruct (decide (r = 0)) as [->|Hr0].
  - rewrite (root_at_ready potential _ _ _ _ _ e) by (by rewrite ?Hperm, ?length_seq).
    simpl. rewrite drop_ge; [done|].
    unfold xrange. by rewrite Hperm, !length_seq.
  - rewrite decide_True; [done|]. simpl. rewrite Hperm. apply elem_of_seq. lia.
Qed.

Lemma gathered_finished e arr :
  st 0 = {| pc := collect_from (xrange 1 SIZE); ns := ready c e |} →
  arr ≡ₚ seq 1 (SIZE - 1) →
  finished (done_ arr).
Proof.
  intros Hst Hperm. unfold finished, gathered, gathering. simpl.
  apply Forall_lookup. intros r p. rewrite list_lookup_imap, list_lookup_fmap.
  destruct (seq 0 SIZE !! r) as [k|] eqn:Hk; [|done].
  apply lookup_seq in Hk as [-> Hlt]. simpl. intros [= <-].
  unfold proc_at. destruct (decide (r = 0)) as [->|Hr0].
  - by rewrite (root_done e) by (by rewrite ?Hperm, ?length_seq).
  - unfold after_barrier. by destruct (Nat.eqb_spec r 0).
Qed.

(** Whatever order the messages arrive in, the run completes. *)
Lemma run_schedule arr :
  all_started potential SIZE Xf Yf Zf c → arr ≡ₚ seq 1 (SIZE - 1) →
  run world0 (schedule potential SIZE Xf Yf Zf c arr) (done_ arr) ∧
  finished (done_ arr).
Proof.
  intros Hall Hperm.
  destruct (all_started_inv 0 Hall) as [e Hst]; [lia|]. simpl in Hst.
  split; [|by eapply gathered_finished].
  unfold schedule. rewrite (assoc_L (++)). eapply run_snoc.
  - eapply run_app.
    + apply run_sends.
      * rewrite Hperm. apply NoDup_seq.
      * intros r Hr. rewrite Hperm in Hr. apply elem_of_seq in Hr.
        destruct (all_started_inv r Hall) as [e' Hst']; [lia|].
        rewrite Hst'. simpl. split; [lia|]. by destruct (Nat.eqb_spec r 0); [lia|].
    + rewrite <- (app_nil_r arr) at 1.
      apply (run_recvs e arr Hst [] []). simpl. by rewrite Hperm, length_seq.
  - simpl. apply (step_barrier (during [] arr)). by eapply barrier_enabled.
Qed.

(** A run that completes went through the barrier with every message
    received. *)
Lemma finished_inv tr w :
  run world0 tr w → finished w →
  ∃ arr tr' e,
    tr = tr' ++ [EvBarrier] ∧ w = done_ arr ∧ traced [] arr tr' ∧
    arr ≡ₚ seq 1 (SIZE - 1) ∧
    st 0 = {| pc := collect_from (xrange 1 SIZE); ns := ready c e |}.
Proof.
  intros Hrun Hfin. apply (run_reached potential) in Hrun; [|done].
  destruct Hrun as [fl arr tr Htr|arr tr Htr Hperm Hpc].
  - exfalso. unfold finished in Hfin. rewrite Forall_lookup in Hfin.
    specialize (Hfin 0 _ (gathering_lookup_2 potential SIZE Xf Yf Zf c fl arr 0 SIZE_pos)).
    unfold proc_at in Hfin. rewrite decide_True in Hfin by done.
    destruct (root_at_pc potential SIZE Xf Yf Zf c arr) as [[todo Hp]|[err Hp]];
      rewrite Hp in Hfin; [|done].
    by apply collect_from_not_done in Hfin.
  - apply root_barrier_inv in Hpc as [_ [e He]];
      [|by eapply traced_arrived_length].
    by exists arr, tr, e.
Qed.

End CompleteRuns.

(** ** Merging on rank 0 *)

Section MergeFacts.
Context {coord row : Type}.
Implicit Types (e : RecExtElectrode coord row) (m : Message coord row)
  (rs : list (Message coord row)).

Lemma of_message_of e : of_message (message_of e) = e.
Proof. by destruct e. Qed.

Lemma append_result_of_message e m :
  append_result e m
  = {| x := x e ++ x (of_message m); y := y e ++ y (of_message m);
       z := z e ++ z (of_message m); LFP := LFP e ++ LFP (of_message m) |}.
Proof. by destruct m as [[[mx my] mz] ml]. Qed.

Lemma merge_snoc e rs m : merge e (rs ++ [m]) = append_result (merge e rs) m.
Proof. unfold merge. by rewrite foldl_snoc. Qed.

(** Each of the four arrays is the root's own followed by the received
    ones, in the order of [results]. *)
Lemma merge_fields e rs :
  merge e rs
  = {| x := x e ++ mjoin ((λ m, x (of_message m)) <$> rs);
       y := y e ++ mjoin ((λ m, y (of_message m)) <$> rs);
       z := z e ++ mjoin ((λ m, z (of_message m)) <$> rs);
       LFP := LFP e ++ mjoin ((λ m, LFP (of_message m)) <$> rs) |}.
Proof.
  induction rs as [|m rs IH] using rev_ind.
  - simpl. rewrite !app_nil_r. by destruct e.
  - rewrite merge_snoc, append_result_of_message, IH. simpl.
    rewrite !fmap_app, !join_app. simpl.
    by rewrite !app_nil_r, !(assoc_L (++)).
Qed.

Lemma aligned_append e m :
  aligned e → aligned (of_message m) → aligned (append_result e m).
Proof.
  rewrite append_result_of_message. unfold aligned. simpl.
  rewrite !length_app. lia.
Qed.

Lemma aligned_merge e rs :
  aligned e → Forall (λ m, aligned (of_message m)) rs → aligned (merge e rs).
Proof.
  intros He. induction rs as [|m rs IH] using rev_ind; intros Hrs; [done|].
  apply Forall_app in Hrs as [Hrs Hm%Forall_inv].
  rewrite merge_snoc. apply aligned_append; [by apply IH|done].
Qed.

Lemma pairing_append e m :
  aligned e →
  pairing (append_result e m) = pairing e ++ pairing (of_message m).
Proof.
  intros (Hxy & Hyz & Hzl). rewrite append_result_of_message.
  unfold pairing, contacts. simpl.
  rewrite !zip_with_app; [done|..]; rewrite ?length_zip_with; lia.
Qed.

Lemma pairing_merge e rs :
  aligned e → Forall (λ m, aligned (of_message m)) rs →
  pairing (merge e rs) = pairing e ++ mjoin ((λ m, pairing (of_message m)) <$> rs).
Proof.
  intros He. induction rs as [|m rs IH] using rev_ind; intros Hrs.
  - simpl. by rewrite app_nil_r.
  - apply Forall_app in Hrs as [Hrs Hm].
    rewrite merge_snoc, pairing_append by (by apply aligned_merge).
    rewrite IH by done. rewrite fmap_app, join_app. simpl.
    by rewrite app_nil_r, (assoc_L (++)).
Qed.

Lemma pairing_lookup e j a b c v :
  pairing e !! j = Some (a, b, c, v) ↔
  x e !! j = Some a ∧ y e !! j = Some b ∧ z e !! j = Some c ∧ LFP e !! j = Some v.
Proof.
  unfold pairing, contacts. split.
  - intros (pt & v' & [= <- <-] & Hpt & Hv)%lookup_zip_with_Some.
    apply lookup_zip_with_Some in Hpt as (ab & c' & [= <- <-] & Hab & Hc).
    apply lookup_zip_with_Some in Hab as (a' & b' & [= <- <-] & Ha & Hb).
    done.
  - intros (Ha & Hb & Hc & Hv). apply lookup_zip_with_Some.
    exists (a, b, c), v. split; [done|]. split; [|done].
    apply lookup_zip_with_Some. exists (a, b), c. split; [done|]. split; [|done].
    apply lookup_zip_with_Some. by exists a, b.
Qed.

End MergeFacts.

(** ** What the ranks compute and what rank 0 ends with *)

Lemma for_all_inr {A B} (f : A → exn B) l k :
  for_all f l = inr k → Forall2 (λ a b, f a = inr b) l k.
Proof.
  revert k. induction l as [|a l IH]; intros k; simpl.
  - intros [= <-]. constructor.
  - destruct (f a) as [err|b] eqn:Hb; [done|]. simpl.
    destruct (for_all f l) as [err|bs]; [done|]. simpl.
    intros [= <-]. constructor; [done|]. by apply IH.
Qed.

Lemma for_all_inl {A B} (f : A → exn B) l err :
  for_all f l = inl err ↔
  ∃ l1 a l2, l = l1 ++ a :: l2 ∧ f a = inl err ∧ Forall (λ a', ∃ b, f a' = inr b) l1.
Proof.
  induction l as [|a l IH]; simpl.
  - split; [done|]. intros (l1 & a & l2 & Hl & _). by destruct l1.
  - split.
    + destruct (f a) as [err'|b] eqn:Ha; simpl.
      * intros [= ->]. exists [], a, l. by repeat split.
      * destruct (for_all f l) as [err'|bs]; simpl; [|done].
        intros [= ->]. destruct (proj1 IH eq_refl) as (l1 & a' & l2 & -> & Herr & Hl1).
        exists (a :: l1), a', l2. repeat split; [done|].
        constructor; [by exists b|done].
    + intros (l1 & a' & l2 & Hl & Herr & Hl1).
      destruct l1 as [|a1 l1]; injection Hl as -> ->.
      * by rewrite Herr.
      * inversion Hl1 as [|?? [b Hb] Hl1']; subst. rewrite Hb. simpl.
        assert (for_all f (l1 ++ a' :: l2) = inl err) as ->; [|done].
        apply IH. by exists l1, a', l2.
Qed.

Lemma Forall2_reindex_perm {A} (l : list A) idx idx' k :
  Forall2 (λ j v, l !! j = Some v) idx k → idx ≡ₚ idx' →
  ∃ k', k ≡ₚ k' ∧ Forall2 (λ j v, l !! j = Some v) idx' k'.
Proof.
  intros HF Hperm. revert k HF.
  induction Hperm as [|j idx idx' _ IH|j1 j2 idx|idx1 idx2 idx3 _ IH1 _ IH2];
    intros k HF.
  - exists k. by split.
  - apply Forall2_cons_inv_l in HF as (v & k0 & Hv & HF & ->).
    destruct (IH _ HF) as (k' & Hk' & HF').
    exists (v :: k'). split; [by constructor|by constructor].
  - apply Forall2_cons_inv_l in HF as (v1 & k0 & Hv1 & HF & ->).
    apply Forall2_cons_inv_l in HF as (v2 & k1 & Hv2 & HF & ->).
    exists (v2 :: v1 :: k1). split; [apply perm_swap|by repeat constructor].
  - destruct (IH1 _ HF) as (k' & Hk' & HF').
    destruct (IH2 _ HF') as (k'' & Hk'' & HF'').
    exists k''. split; [by etrans|done].
Qed.

Lemma Forall2_reindex_id {A} (l k : list A) :
  Forall2 (λ j v, l !! j = Some v) (seq 0 (length l)) k → k = l.
Proof.
  intros HF. apply list_eq. intros j.
  pose proof (Forall2_length _ _ _ HF) as Hlen. rewrite length_seq in Hlen.
  rewrite Forall2_lookup in HF. specialize (HF j).
  destruct (decide (j < length l)) as [Hj|Hj].
  - rewrite lookup_seq_lt in HF by done. inversion HF as [? v Hv|]; subst.
    by rewrite Hv.
  - by rewrite !lookup_ge_None_2 by lia.
Qed.

(** Arrays read off an array [l] at a permutation of its indices are a
    permutation of [l]. *)
Lemma Forall2_reindex_Permutation {A} (l : list A) idx k :
  Forall2 (λ j v, l !! j = Some v) idx k → idx ≡ₚ seq 0 (length l) → k ≡ₚ l.
Proof.
  intros HF Hperm.
  destruct (Forall2_reindex_perm l idx _ k HF Hperm) as (k' & Hk' & HF').
  apply Forall2_reindex_id in HF'. by subst.
Qed.

Lemma Forall2_zip_reindex {A B} (l1 : list A) (l2 : list B) idx k1 k2 :
  Forall2 (λ j v, l1 !! j = Some v) idx k1 →
  Forall2 (λ j v, l2 !! j = Some v) idx k2 →
  Forall2 (λ j v, zip l1 l2 !! j = Some v) idx (zip k1 k2).
Proof.
  intros H1. revert k2. induction H1 as [|j v idx k1 Hv _ IH]; intros k2 H2.
  - inversion H2; subst. constructor.
  - apply Forall2_cons_inv_l in H2 as (v2 & k2' & Hv2 & H2 & ->).
    simpl. constructor; [|by apply IH].
    apply lookup_zip_with_Some. by exists v, v2.
Qed.

Lemma stride_length {A} W r (a : list A) :
  1 ≤ W → length (stride W r a) = length (stride W r (seq 0 (length a))).
Proof. intros HW. symmetry. eapply Forall2_length, stride_indices, HW. Qed.

Section RootResult.
Context {coord row cell_t : Type}.
Variable potential : cell_t → coord * coord * coord → exn row.
Variables (SIZE : nat) (Xf Yf Zf : list coord) (c : cell_t).
Hypothesis SIZE_pos : 1 ≤ SIZE.
Hypothesis Y_length : length Yf = length Xf.
Hypothesis Z_length : length Zf = length Xf.

Local Abbreviation st := (start potential SIZE Xf Yf Zf c).
Local Abbreviation out := (outgoing potential SIZE Xf Yf Zf c).
Local Abbreviation part := (λ r, stride SIZE r (seq 0 (length Xf))).
Implicit Types (r s : nat) (arr : list nat) (e : RecExtElectrode coord row).

(** A row for each contact, and each row the potential at its contact. *)
Local Abbreviation rows_ok e :=
  (Forall (λ pv, potential c pv.1 = inr pv.2) (pairing e)).

Lemma simulate_inr e0 e :
  simulate potential c e0 = inr e →
  x e = x e0 ∧ y e = y e0 ∧ z e = z e0 ∧
  Forall2 (λ pt v, potential c pt = inr v) (contacts e0) (LFP e).
Proof.
  unfold simulate. destruct (for_all _ _) as [err|lfp] eqn:Hlfp; [done|].
  simpl. intros [= <-]. simpl. by apply for_all_inr in Hlfp.
Qed.

Lemma start_ready_electrode r e :
  ns (st r) = ready c e →
  x e = stride SIZE r Xf ∧ y e = stride SIZE r Yf ∧ z e = stride SIZE r Zf ∧
  aligned e ∧ rows_ok e.
Proof.
  unfold start, boot. rewrite electrodeParameters_ok by done.
  destruct (simulate _ _ _) as [err|e'] eqn:Hsim; [done|].
  intros He. assert (e' = e) as ->.
  { destruct (Nat.eqb r 0); simpl in He; by injection He. }
  apply simulate_inr in Hsim as (Hx & Hy & Hz & Hrows). simpl in *.
  pose proof (Forall2_length _ _ _ Hrows) as Hlen.
  unfold contacts in Hlen, Hrows. simpl in Hlen, Hrows.
  rewrite !length_zip_with in Hlen.
  assert (length (stride SIZE r Yf) = length (stride SIZE r Xf)) as HlY
    by (by rewrite (stride_length _ _ Yf), (stride_length _ _ Xf), Y_length).
  assert (length (stride SIZE r Zf) = length (stride SIZE r Xf)) as HlZ
    by (by rewrite (stride_length _ _ Zf), (stride_length _ _ Xf), Z_length).
  repeat split; try done.
  - rewrite Hx, Hy. done.
  - rewrite Hy, Hz. lia.
  - rewrite Hz. lia.
  - unfold pairing, contacts. rewrite Hx, Hy, Hz.
    clear -Hrows. induction Hrows; simpl; by constructor.
Qed.

Lemma outgoing_ready r e : ns (st r) = ready c e → out r = message_of e.
Proof. unfold outgoing. by intros ->. Qed.

Lemma sender_ready r : r ≠ 0 → pc (st r) = L_send → ∃ e, ns (st r) = ready c e.
Proof.
  intros Hr Hpc.
  destruct (start_cases potential SIZE Xf Yf Zf c r) as [(err & n & Hst & _)|[e Hst]];
    rewrite Hst in *; [done|]. by exists e.
Qed.

(** The merged electrode holds, array by array, the slices of rank 0 and
    of the ranks [arr] one after the other; its rows still belong to its
    contacts. *)
Lemma merged_electrode e0 arr :
  ns (st 0) = ready c e0 →
  (∀ r, r ∈ arr → r ≠ 0 ∧ pc (st r) = L_send) →
  let e := merge e0 (out <$> arr) in
  let idx := mjoin (part <$> 0 :: arr) in
  Forall2 (λ j v, Xf !! j = Some v) idx (x e) ∧
  Forall2 (λ j v, Yf !! j = Some v) idx (y e) ∧
  Forall2 (λ j v, Zf !! j = Some v) idx (z e) ∧
  aligned e ∧ rows_ok e.
Proof.
  intros He0 Harr e idx.
  destruct (start_ready_electrode 0 e0 He0) as (Hx0 & Hy0 & Hz0 & Hal0 & Hrows0).
  assert (Forall (λ m, ∃ r e', m = message_of e' ∧
                        x e' = stride SIZE r Xf ∧ y e' = stride SIZE r Yf ∧
                        z e' = stride SIZE r Zf ∧ aligned e' ∧ rows_ok e')
                 (out <$> arr)) as Hmsgs.
  { apply Forall_fmap, Forall_forall. intros r Hr. simpl.
    destruct (Harr r Hr) as [Hr0 Hpc].
    destruct (sender_ready r Hr0 Hpc) as [e' He'].
    exists r, e'. split; [by apply outgoing_ready|].
    by apply start_ready_electrode. }
  assert (Forall (λ m, aligned (of_message m)) (out <$> arr)) as Hal.
  { eapply Forall_impl; [exact Hmsgs|]. simpl.
    intros m (r & e' & -> & _ & _ & _ & Hal' & _). by rewrite of_message_of. }
  assert (∀ (f : RecExtElectrode coord row → list coord) (Af : list coord),
            length Af = length Xf →
            f e0 = stride SIZE 0 Af →
            (∀ r e', r ∈ arr → ns (st r) = ready c e' → f e' = stride SIZE r Af) →
            Forall2 (λ j v, Af !! j = Some v) idx
                    (f e0 ++ mjoin ((λ m, f (of_message m)) <$> (out <$> arr))))
    as Hfield.
  { intros f Af HAf Hf0 Hf. subst idx. simpl. apply Forall2_app.
    - rewrite Hf0, <- HAf. by apply stride_indices.
    - apply Forall2_join. rewrite <- list_fmap_compose.
      apply Forall2_fmap, Forall2_same_length_lookup_2; [done|].
      intros j r r' Hr Hr'. simplify_eq. simpl.
      apply list_elem_of_lookup_2 in Hr.
      destruct (Harr r Hr) as [Hr0 Hpc].
      destruct (sender_ready r Hr0 Hpc) as [e' He'].
      rewrite (outgoing_ready r e' He'), of_message_of, (Hf r e' Hr He'), <- HAf.
      by apply stride_indices. }
  subst e. rewrite merge_fields. simpl.
  split; [|split; [|split; [|split]]].
  - apply (Hfield x Xf); [done|done|].
    intros r e' _ He'. by apply start_ready_electrode in He' as (? & _).
  - apply (Hfield y Yf); [done|done|].
    intros r e' _ He'. by apply start_ready_electrode in He' as (_ & ? & _).
  - apply (Hfield z Zf); [done|done|].
    intros r e' _ He'. by apply start_ready_electrode in He' as (_ & _ & ? & _).
  - rewrite <- merge_fields. by apply aligned_merge.
  - rewrite <- merge_fields, pairing_merge by done.
    apply Forall_app. split; [done|].
    apply Forall_join, Forall_fmap.
    eapply Forall_impl; [exact Hmsgs|]. simpl.
    intros m (r & e' & -> & _ & _ & _ & _ & Hrows'). by rewrite of_message_of.
Qed.

End RootResult.

Lemma Permutation_fmap_inv {A B} (f : A → B) (l : list A) (k : list B) :
  k ≡ₚ f <$> l → ∃ l', k = f <$> l' ∧ l' ≡ₚ l.
Proof.
  intros Hperm. remember (f <$> l) as k' eqn:Hk'. revert l Hk'.
  induction Hperm as [|b k k' _ IH|b1 b2 k|k1 k2 k3 _ IH1 _ IH2]; intros l Hl.
  - symmetry in Hl. apply fmap_nil_inv in Hl as ->. by exists [].
  - symmetry in Hl. apply fmap_cons_inv in Hl as (a & l0 & -> & -> & ->).
    destruct (IH l0 eq_refl) as (l' & -> & Hl').
    exists (a :: l'). split; [done|by constructor].
  - symmetry in Hl. apply fmap_cons_inv in Hl as (a1 & l0 & -> & Hl & ->).
    symmetry in Hl. apply fmap_cons_inv in Hl as (a2 & l1 & -> & -> & ->).
    exists (a2 :: a1 :: l1). split; [done|apply perm_swap].
  - destruct (IH2 l Hl) as (l2 & -> & Hl2).
    destruct (IH1 l2 eq_refl) as (l1 & -> & Hl1).
    exists l1. split; [done|by etrans].
Qed.

Section FinalWorld.
Context {coord row cell_t : Type}.
Variable potential : cell_t → coord * coord * coord → exn row.
Variables (SIZE : nat) (Xf Yf Zf : list coord) (c : cell_t).
Hypothesis SIZE_pos : 1 ≤ SIZE.

Local Abbreviation st := (start potential SIZE Xf Yf Zf c).
Local Abbreviation out := (outgoing potential SIZE Xf Yf Zf c).
Local Abbreviation snt := (sent potential SIZE Xf Yf Zf c).
Local Abbreviation root := (root_at potential SIZE Xf Yf Zf c).
Local Abbreviation at_ := (proc_at potential SIZE Xf Yf Zf c).
Local Abbreviation pkt := (packet potential SIZE Xf Yf Zf c).
Local Abbreviation during := (gathering potential SIZE Xf Yf Zf c).
Local Abbreviation done_ := (gathered potential SIZE Xf Yf Zf c).
Local Abbreviation traced := (gather_trace potential SIZE Xf Yf Zf c).
Local Abbreviation world0 := (init potential SIZE Xf Yf Zf c).
Implicit Types (r s : nat) (arr fl : list nat) (tr : list (event coord row)).

Lemma gathered_lookup arr r :
  r < SIZE → procs (done_ arr) !! r = Some (after_barrier r (at_ [] arr r)).
Proof.
  intros Hr. unfold gathered. cbn [procs].
  by rewrite list_lookup_imap, (gathering_lookup_2 potential).
Qed.

Lemma sends_barrier tr : sends (tr ++ [EvBarrier]) = sends tr.
Proof. by rewrite sends_snoc, app_nil_r. Qed.

Lemma recvs_barrier tr : recvs (tr ++ [EvBarrier]) = recvs tr.
Proof. by rewrite recvs_snoc, app_nil_r. Qed.

(** The payloads of the receives are the messages of the arrived ranks. *)
Lemma recvs_payloads fl arr tr :
  traced fl arr tr → (λ d, d.2) <$> recvs tr = out <$> arr.
Proof.
  intros [_ _ _ Hr _]. rewrite Hr, <- list_fmap_compose.
  by apply list_fmap_ext.
Qed.

(** A run, wherever it stands, is described by the ranks that have sent
    and those whose message has arrived. *)
Lemma run_inv tr w :
  run world0 tr w →
  ∃ fl arr tr0,
    traced fl arr tr0 ∧
    ((tr = tr0 ∧ w = during fl arr) ∨
     (tr = tr0 ++ [EvBarrier] ∧ w = done_ arr ∧ fl = [] ∧
      arr ≡ₚ seq 1 (SIZE - 1) ∧
      ∃ e0, st 0 = {| pc := collect_from (xrange 1 SIZE); ns := ready c e0 |})).
Proof.
  intros Hrun. apply (run_reached potential) in Hrun; [|done].
  destruct Hrun as [fl arr tr Htr|arr tr Htr Hperm Hpc].
  - exists fl, arr, tr. split; [done|by left].
  - exists [], arr, tr. split; [done|right].
    apply (root_barrier_inv potential) in Hpc as [_ He0];
      [|done|by eapply traced_arrived_length].
    done.
Qed.

Lemma finished_root tr w :
  run world0 tr w → finished w →
  ∃ arr tr0 e0 p,
    tr = tr0 ++ [EvBarrier] ∧ traced [] arr tr0 ∧ arr ≡ₚ seq 1 (SIZE - 1) ∧
    w = done_ arr ∧
    st 0 = {| pc := collect_from (xrange 1 SIZE); ns := ready c e0 |} ∧
    procs w !! 0 = Some p ∧
    p = {| pc := L_done;
           ns := {| electrode := Some (merge e0 (out <$> arr));
                    results := Some (out <$> arr);
                    result := last (out <$> arr);
                    i := last (xrange 1 SIZE);
                    cell := c |} |}.
Proof.
  intros Hrun Hfin.
  destruct (finished_inv potential SIZE Xf Yf Zf c SIZE_pos tr w Hrun Hfin)
    as (arr & tr0 & e0 & -> & -> & Htr & Hperm & Hst).
  exists arr, tr0, e0. eexists. repeat (split; [done|]).
  split; [by apply gathered_lookup|].
  unfold proc_at. rewrite decide_True by done.
  rewrite (root_done potential _ _ _ _ _ e0) by (by rewrite ?Hperm, ?length_seq).
  rewrite take_ge; [done|].
  unfold xrange. by rewrite Hperm, !length_seq.
Qed.

End FinalWorld.

(** ** The merged result *)

Lemma arrival_ranks_all SIZE arr :
  1 ≤ SIZE → arr ≡ₚ seq 1 (SIZE - 1) → 0 :: arr ≡ₚ seq 0 SIZE.
Proof.
  intros HS ->. destruct SIZE as [|n]; [lia|].
  simpl. by rewrite Nat.sub_0_r.
Qed.

(** The electrode of rank 0 at the end of a run. *)
Lemma finished_merged {coord row cell_t : Type}
    (potential : cell_t → coord * coord * coord → exn row)
    (SIZE : nat) (Xf Yf Zf : list coord) (c : cell_t)
    (tr : list (event coord row)) (w : world coord row cell_t) :
  1 ≤ SIZE → length Yf = length Xf → length Zf = length Xf →
  run (init potential SIZE Xf Yf Zf c) tr w → finished w →
  ∃ p e0 e idx,
    procs w !! 0 = Some p ∧ electrode (ns p) = Some e ∧
    electrode (ns (start potential SIZE Xf Yf Zf c 0)) = Some e0 ∧
    e = merge e0 ((λ d, d.2) <$> recvs tr) ∧
    idx ≡ₚ seq 0 (length Xf) ∧
    Forall2 (λ j v, Xf !! j = Some v) idx (x e) ∧
    Forall2 (λ j v, Yf !! j = Some v) idx (y e) ∧
    Forall2 (λ j v, Zf !! j = Some v) idx (z e) ∧
    contacts e ≡ₚ zip (zip Xf Yf) Zf ∧
    aligned e ∧
    Forall (λ pv, potential c pv.1 = inr pv.2) (pairing e).
Proof.
  intros HS HY HZ Hrun Hfin.
  destruct (finished_root potential SIZE Xf Yf Zf c HS tr w Hrun Hfin)
    as (arr & tr0 & e0 & p & -> & Htr & Hperm & -> & Hst & Hp & ->).
  assert (ns (start potential SIZE Xf Yf Zf c 0) = ready c e0) as Hns
    by (by rewrite Hst).
  destruct (merged_electrode potential SIZE Xf Yf Zf c HS HY HZ e0 arr Hns)
    as (Hx & Hy & Hz & Hal & Hrows).
  { intros r Hr. destruct Htr as [_ Hranks _ _ _].
    destruct (Hranks r Hr); split; [lia|done]. }
  eexists _, e0, _, _. split; [exact Hp|]. simpl.
  split; [done|]. split; [by rewrite Hns|].
  split; [by rewrite recvs_barrier, (recvs_payloads potential _ _ _ _ _ _ _ _ Htr)|].
  split; [|repeat (split; [done|]); split; [|done]].
  - rewrite (arrival_ranks_all SIZE arr) by done. by apply strides_union.
  - eapply Forall2_reindex_Permutation.
    + apply Forall2_zip_reindex; [apply Forall2_zip_reindex|]; done.
    + rewrite !length_zip_with, HY, HZ, !Nat.min_id.
      rewrite (arrival_ranks_all SIZE arr) by done. by apply strides_union.
Qed.

(** C2: in every run that completes, the electrode of rank 0 is its own
    one followed by the received ones in the order of arrival; its arrays
    are the full arrays read at a permutation of the indices [0..N-1], so
    every point is there exactly once, each row with its own contact. The
    order is not the one of the full arrays in general: with two ranks and
    three points the merged x-array is [x0, x2, x1]. *)
Theorem merged_result_complete_unordered :
  (∀ (coord row cell_t : Type)
     (potential : cell_t → coord * coord * coord → exn row)
     (SIZE : nat) (Xf Yf Zf : list coord) (c : cell_t)
     (tr : list (event coord row)) (w : world coord row cell_t),
     1 ≤ SIZE → length Yf = length Xf → length Zf = length Xf →
     run (init potential SIZE Xf Yf Zf c) tr w → finished w →
     ∃ p e0 e idx,
       procs w !! 0 = Some p ∧ electrode (ns p) = Some e ∧
       electrode (ns (start potential SIZE Xf Yf Zf c 0)) = Some e0 ∧
       e = merge e0 ((λ d, d.2) <$> recvs tr) ∧
       idx ≡ₚ seq 0 (length Xf) ∧
       Forall2 (λ j v, Xf !! j = Some v) idx (x e) ∧
       Forall2 (λ j v, Yf !! j = Some v) idx (y e) ∧
       Forall2 (λ j v, Zf !! j = Some v) idx (z e) ∧
       contacts e ≡ₚ zip (zip Xf Yf) Zf ∧
       aligned e ∧
       Forall (λ pv, potential c pv.1 = inr pv.2) (pairing e)) ∧
  (∃ tr w p e,
     run (init (λ (_ : unit) _, inr ()) 2 [0; 1; 2] [0; 0; 0] [0; 0; 0] ()) tr w ∧
     finished w ∧
     procs w !! 0 = Some p ∧ electrode (ns p) = Some e ∧
     x e = [0; 2; 1] ∧ x e ≠ [0; 1; 2]).
Proof.
  split.
  - intros. by apply finished_merged.
  - destruct (run_schedule (λ (_ : unit) _, inr ()) 2 [0; 1; 2] [0; 0; 0] [0; 0; 0] ()
                ltac:(lia) [1]) as [Hrun Hfin].
    { repeat constructor; by eexists. }
    { done. }
    eexists _, _, _, _. split; [exact Hrun|]. split; [exact Hfin|].
    split; [reflexivity|]. split; [reflexivity|]. by split.
Qed.

Lemma merged_result_complete_unordered_witness :
  ∃ tr w p e,
    run (init (λ (_ : unit) _, inr ()) 2 [10; 20; 30] [0; 0; 0] [7; 8; 9] ()) tr w ∧
    procs w !! 0 = Some p ∧ electrode (ns p) = Some e ∧
    contacts e ≡ₚ zip (zip [10; 20; 30] [0; 0; 0]) [7; 8; 9].
Proof.
  pose proof (run_schedule (λ (_ : unit) _, inr ()) 2 [10; 20; 30] [0; 0; 0] [7; 8; 9] ()
                ltac:(lia) [1]
                ltac:(repeat constructor; by eexists) ltac:(done)) as [Hrun Hfin].
  destruct (proj1 merged_result_complete_unordered _ _ _ _ 2 [10; 20; 30] [0; 0; 0]
              [7; 8; 9] () _ _ ltac:(lia) eq_refl eq_refl Hrun Hfin)
    as (p & e0 & e & idx & Hp & He & _ & _ & _ & _ & _ & _ & Hperm & _).
  by eexists _, _, p, e.
Defined.

(** ** Contacts and rows stay paired *)

(** What a rank sends has a row for each of its contacts, each row the
    potential at its contact. *)
Lemma sent_message_paired {coord row cell_t : Type}
    (potential : cell_t → coord * coord * coord → exn row)
    (SIZE : nat) (Xf Yf Zf : list coord) (c : cell_t)
    (tr : list (event coord row)) (w : world coord row cell_t) s d m :
  1 ≤ SIZE → length Yf = length Xf → length Zf = length Xf →
  run (init potential SIZE Xf Yf Zf c) tr w →
  (s, d, m) ∈ sends tr →
  aligned (of_message m) ∧
  Forall (λ pv, potential c pv.1 = inr pv.2) (pairing (of_message m)).
Proof.
  intros HS HY HZ Hrun Hin.
  destruct (run_inv potential SIZE Xf Yf Zf c HS tr w Hrun)
    as (fl & arr & tr0 & Htr & Hcase).
  pose proof Htr as [_ Hranks Hsends _ _].
  assert ((s, d, m) ∈ sends tr0) as Hin0.
  { destruct Hcase as [[-> _]|(-> & _)]; [done|]. by rewrite sends_barrier in Hin. }
  rewrite Hsends in Hin0. apply list_elem_of_fmap in Hin0 as (r & Hr & Hin0).
  unfold packet in Hr. injection Hr as -> -> ->.
  destruct (Hranks r Hin0) as [Hr1 Hpc].
  destruct (sender_ready potential SIZE Xf Yf Zf c r ltac:(lia) Hpc) as [e He].
  rewrite (outgoing_ready potential _ _ _ _ _ _ _ He), of_message_of.
  by apply (start_ready_electrode potential SIZE Xf Yf Zf c HS HY HZ r e)
    in He as (_ & _ & _ & ? & ?).
Qed.

(** C10: a message is the four arrays of one electrode, and every message
    sent in a run has a row for each contact, the row of that contact;
    when the root's electrode and every message have three coordinate
    arrays and a row count of one length, so has the electrode after each
    turn of the merge loop, and row [j] of the merged potential matrix with
    the merged [(x[j], y[j], z[j])] is a row and its own contact of the
    root's electrode or of one message: the pairs of the merged electrode
    are the root's pairs followed by those of the messages, in order. *)
Theorem merge_preserves_pairing {coord row} (e : RecExtElectrode coord row)
    (results : list (Message coord row)) :
  aligned e → Forall (λ m, aligned (of_message m)) results →
  (∀ e' : RecExtElectrode coord row,
     message_of e' = (x e', y e', z e', LFP e') ∧
     pairing (of_message (message_of e')) = pairing e') ∧
  (∀ (cell_t : Type) (potential : cell_t → coord * coord * coord → exn row)
     (SIZE : nat) (Xf Yf Zf : list coord) (c : cell_t)
     (tr : list (event coord row)) (w : world coord row cell_t) s d m,
     1 ≤ SIZE → length Yf = length Xf → length Zf = length Xf →
     run (init potential SIZE Xf Yf Zf c) tr w →
     (s, d, m) ∈ sends tr →
     aligned (of_message m) ∧
     Forall (λ pv, potential c pv.1 = inr pv.2) (pairing (of_message m))) ∧
  (∀ k, aligned (merge e (take k results))) ∧
  pairing (merge e results)
  = pairing e ++ mjoin ((λ m, pairing (of_message m)) <$> results) ∧
  ∀ j a b c v,
    x (merge e results) !! j = Some a → y (merge e results) !! j = Some b →
    z (merge e results) !! j = Some c → LFP (merge e results) !! j = Some v →
    (a, b, c, v) ∈ pairing e ∨
    ∃ m, m ∈ results ∧ (a, b, c, v) ∈ pairing (of_message m).
Proof.
  intros He Hrs. split; [|split; [|split; [|split]]].
  - intros e'. by rewrite of_message_of.
  - intros cell_t potential SIZE Xf Yf Zf c tr w s d m HS HY HZ Hrun Hin.
    exact (sent_message_paired potential SIZE Xf Yf Zf c tr w s d m HS HY HZ Hrun Hin).
  - intros k. apply aligned_merge; [done|]. by apply Forall_take.
  - by apply pairing_merge.
  - intros j a b c v Ha Hb Hc Hv.
    assert (pairing (merge e results) !! j = Some (a, b, c, v)) as Hj
      by (by apply pairing_lookup).
    rewrite pairing_merge in Hj by done.
    apply list_elem_of_lookup_2, elem_of_app in Hj as [Hj|Hj]; [by left|right].
    apply list_elem_of_join in Hj as (l & Hl & Hin).
    apply list_elem_of_fmap in Hin as (m & -> & Hm). by exists m.
Qed.

Lemma merge_preserves_pairing_witness :
  pairing (merge {| x := [1]; y := [2]; z := [3]; LFP := [10] |}
                 [([4; 5], [0; 0], [7; 8], [20; 30])])
  = [(1, 2, 3, 10); (4, 0, 7, 20); (5, 0, 8, 30)].
Proof.
  refine (proj1 (proj2 (proj2 (proj2
    (merge_preserves_pairing {| x := [1]; y := [2]; z := [3]; LFP := [10] |}
       [([4; 5], [0; 0], [7; 8], [20; 30])] _ _))))).
  - repeat split.
  - repeat constructor.
Defined.

(** ** The exchange of messages *)

Lemma ranks_full (l : list nat) SIZE :
  NoDup l → (∀ r, r ∈ l → 1 ≤ r < SIZE) → SIZE - 1 ≤ length l →
  l ≡ₚ seq 1 (SIZE - 1).
Proof.
  intros Hnd Hin Hlen. apply submseteq_length_Permutation.
  - apply NoDup_submseteq; [done|]. intros r Hr. apply elem_of_seq.
    specialize (Hin r Hr). lia.
  - by rewrite length_seq.
Qed.

Lemma recvs_of_sends {coord row} (f : nat → Message coord row) (l : list nat) :
  recvs ((λ r, EvSend r 0 (f r)) <$> l) = [].
Proof. by induction l. Qed.

Lemma recvs_of_recvs {coord row} (f : nat → Message coord row) (l : list nat) :
  recvs ((λ r, EvRecv 0 r (f r)) <$> l) = (λ r, (0, r, f r)) <$> l.
Proof.
  induction l as [|r l IH]; [done|].
  simpl. f_equal. exact IH.
Qed.

Lemma recvs_schedule {coord row cell_t : Type}
    (potential : cell_t → coord * coord * coord → exn row)
    (SIZE : nat) (Xf Yf Zf : list coord) (c : cell_t) (arr : list nat) :
  recvs (schedule potential SIZE Xf Yf Zf c arr)
  = (λ r, (0, r, outgoing potential SIZE Xf Yf Zf c r)) <$> arr.
Proof.
  unfold schedule.
  rewrite (assoc_L (++)), recvs_snoc, app_nil_r.
  pose proof (recvs_of_sends (outgoing potential SIZE Xf Yf Zf c) arr) as Hs.
  pose proof (recvs_of_recvs (outgoing potential SIZE Xf Yf Zf c) arr) as Hr.
  unfold recvs in *. by rewrite omap_app, Hs, Hr.
Qed.

(** C4: in every run each rank other than 0 sends at most one message, to
    rank 0, holding the four arrays of its electrode, and rank 0 receives
    only such messages, each once; rank 0 is at or past the barrier only
    when it has received exactly [SIZE - 1] messages, one from each other
    rank, all of which have then sent exactly one. Its [results] are the
    payloads in the order of arrival, and every order of arrival occurs
    in some run. *)
Theorem gather_one_message_each {coord row cell_t : Type}
    (potential : cell_t → coord * coord * coord → exn row)
    (SIZE : nat) (Xf Yf Zf : list coord) (c : cell_t)
    (tr : list (event coord row)) (w : world coord row cell_t) :
  1 ≤ SIZE →
  run (init potential SIZE Xf Yf Zf c) tr w →
  let out := outgoing potential SIZE Xf Yf Zf c in
  (∃ srcs arr,
     sends tr = (λ r, (r, 0, out r)) <$> srcs ∧ NoDup srcs ∧
     (∀ r, r ∈ srcs →
        1 ≤ r < SIZE ∧
        ∃ e, electrode (ns (start potential SIZE Xf Yf Zf c r)) = Some e ∧
             out r = (x e, y e, z e, LFP e)) ∧
     recvs tr = (λ r, (0, r, out r)) <$> arr ∧ NoDup arr ∧
     (∀ r, r ∈ arr → r ∈ srcs) ∧
     ∀ p, procs w !! 0 = Some p → pc p = L_barrier ∨ pc p = L_done →
          length (recvs tr) = SIZE - 1 ∧
          arr ≡ₚ seq 1 (SIZE - 1) ∧ srcs ≡ₚ seq 1 (SIZE - 1) ∧
          results (ns p) = Some (out <$> arr)) ∧
  (all_started potential SIZE Xf Yf Zf c →
   ∀ arr', arr' ≡ₚ seq 1 (SIZE - 1) →
     ∃ tr' w' p',
       run (init potential SIZE Xf Yf Zf c) tr' w' ∧ finished w' ∧
       recvs tr' = (λ r, (0, r, out r)) <$> arr' ∧
       procs w' !! 0 = Some p' ∧ results (ns p') = Some (out <$> arr')).
Proof.
  intros HS Hrun out. split.
  - destruct (run_inv potential SIZE Xf Yf Zf c HS tr w Hrun)
      as (fl & arr & tr0 & Htr & Hcase).
    pose proof Htr as [Hnd Hranks Hsends Hrecvs _].
    pose proof (traced_arrived_length potential _ _ _ _ _ HS _ _ _ Htr) as Hlen.
    assert (sends tr = sends tr0 ∧ recvs tr = recvs tr0) as [-> ->].
    { destruct Hcase as [[-> _]|(-> & _)]; [done|].
      by rewrite sends_barrier, recvs_barrier. }
    destruct (Permutation_fmap_inv _ _ _ Hsends) as (srcs & Hsrcs & Hperm).
    exists srcs, arr. split; [done|].
    split; [by rewrite Hperm|].
    split.
    { intros r Hr. rewrite Hperm in Hr. destruct (Hranks r Hr) as [Hr1 Hpc].
      split; [done|].
      destruct (sender_ready potential SIZE Xf Yf Zf c r ltac:(lia) Hpc) as [e He].
      exists e. split; [by rewrite He|].
      subst out. by rewrite (outgoing_ready potential _ _ _ _ _ _ _ He). }
    split; [done|].
    split; [by apply NoDup_app in Hnd as (_ & _ & ?)|].
    split; [intros r Hr; rewrite Hperm; apply elem_of_app; by right|].
    intros p Hp Hpc.
    assert (pc (root_at potential SIZE Xf Yf Zf c arr) = L_barrier ∧
            results (ns p) = Some (out <$> arr)) as [Hroot Hres].
    { destruct Hcase as [[_ ->]|(_ & -> & _ & Hfull & e0 & Hst)].
      - rewrite (gathering_lookup_2 potential) in Hp by done.
        injection Hp as <-. unfold proc_at in *.
        rewrite decide_True in * by done.
        destruct Hpc as [Hpc|Hpc].
        + split; [done|].
          apply (root_barrier_inv potential) in Hpc as [_ [e0 Hst]]; [|done..].
          by rewrite (root_at_ready potential _ _ _ _ _ e0) by done.
        + destruct (root_at_pc potential SIZE Xf Yf Zf c arr)
            as [[todo Hc]|[err Hc]]; rewrite Hc in Hpc; [|done].
          by apply collect_from_not_done in Hpc.
      - rewrite (gathered_lookup potential) in Hp by done.
        injection Hp as <-. unfold proc_at. rewrite decide_True by done.
        rewrite (root_done potential _ _ _ _ _ e0) by done.
        rewrite (root_at_ready potential _ _ _ _ _ e0) by done. simpl.
        split; [|done]. rewrite drop_ge; [done|].
        unfold xrange. by rewrite Hfull, !length_seq. }
    apply (root_barrier_inv potential) in Hroot as [Hfull _]; [|done..].
    assert (arr ≡ₚ seq 1 (SIZE - 1)) as Harr.
    { apply ranks_full; [by apply NoDup_app in Hnd as (_ & _ & ?)| |lia].
      intros r Hr. apply Hranks, elem_of_app. auto. }
    split; [by rewrite Hrecvs, length_fmap|]. split; [done|]. split; [|done].
    rewrite Hperm. apply ranks_full; [done| |rewrite length_app; lia].
    intros r Hr. by apply Hranks.
  - intros Hall arr' Harr'.
    destruct (run_schedule potential SIZE Xf Yf Zf c HS arr' Hall Harr')
      as [Hrun' Hfin'].
    destruct (all_started_inv potential SIZE Xf Yf Zf c HS 0 Hall HS) as [e0 Hst].
    simpl in Hst.
    eexists _, _, _. split; [exact Hrun'|]. split; [exact Hfin'|].
    split; [by apply recvs_schedule|].
    split; [by apply (gathered_lookup potential)|].
    unfold proc_at. rewrite decide_True by done.
    by rewrite (root_done potential _ _ _ _ _ e0) by (by rewrite ?Harr', ?length_seq).
Qed.

Lemma gather_one_message_each_witness :
  let pot := λ (_ : unit) (_ : nat * nat * nat), @inr error unit () in
  ∃ srcs arr,
    sends (schedule pot 3 [0; 1; 2; 3; 4] [0; 0; 0; 0; 0] [5; 6; 7; 8; 9] () [2; 1])
    = (λ r, (r, 0, outgoing pot 3 [0; 1; 2; 3; 4] [0; 0; 0; 0; 0] [5; 6; 7; 8; 9] () r))
        <$> srcs ∧
    recvs (schedule pot 3 [0; 1; 2; 3; 4] [0; 0; 0; 0; 0] [5; 6; 7; 8; 9] () [2; 1])
    = (λ r, (0, r, outgoing pot 3 [0; 1; 2; 3; 4] [0; 0; 0; 0; 0] [5; 6; 7; 8; 9] () r))
        <$> arr ∧
    NoDup srcs ∧ NoDup arr.
Proof.
  intros pot.
  pose proof (run_schedule pot 3 [0; 1; 2; 3; 4] [0; 0; 0; 0; 0] [5; 6; 7; 8; 9] ()
                ltac:(lia) [2; 1]
                ltac:(repeat constructor; by eexists) ltac:(apply perm_swap))
    as [Hrun _].
  destruct (gather_one_message_each pot 3 _ _ _ () _ _ ltac:(lia) Hrun)
    as [(srcs & arr & Hs & Hnd & _ & Hr & Hnd' & _) _].
  by exists srcs, arr.
Defined.

(** ** The barrier *)

Lemma barriers_zero_inv {coord row} (tr : list (event coord row)) :
  barriers (tr ++ [EvBarrier]) ≠ 0.
Proof. rewrite barriers_snoc. unfold barriers at 2. simpl. lia. Qed.



(** ** What a rank other than 0 keeps *)

Lemma packet_inj {coord row cell_t : Type}
    (potential : cell_t → coord * coord * coord → exn row)
    (SIZE : nat) (Xf Yf Zf : list coord) (c : cell_t) (r : nat) (l : list nat) :
  (r, 0, outgoing potential SIZE Xf Yf Zf c r) ∈ (packet potential SIZE Xf Yf Zf c <$> l) →
  r ∈ l.
Proof.
  intros (s & Hs & Hin)%list_elem_of_fmap. unfold packet in Hs.
  by injection Hs as ->.
Qed.

(** C9, as the script has it: once a rank other than 0 has sent, its
    [electrode] and [results] are [None] and its [result] is the message it
    sent; [i] and [cell] are as before the gather. When the run completes,
    rank 0 holds the merged electrode and its [results], and no other rank
    holds an electrode or [results]. *)
Theorem nonroot_keeps_only_result {coord row cell_t : Type}
    (potential : cell_t → coord * coord * coord → exn row)
    (SIZE : nat) (Xf Yf Zf : list coord) (c : cell_t)
    (tr : list (event coord row)) (w : world coord row cell_t) :
  1 ≤ SIZE →
  run (init potential SIZE Xf Yf Zf c) tr w →
  let out := outgoing potential SIZE Xf Yf Zf c in
  let st := start potential SIZE Xf Yf Zf c in
  (∀ r p, procs w !! r = Some p → (r, 0, out r) ∈ sends tr →
     r ≠ 0 ∧
     electrode (ns p) = None ∧ results (ns p) = None ∧
     result (ns p) = Some (out r) ∧
     (∃ e, electrode (ns (st r)) = Some e ∧ out r = (x e, y e, z e, LFP e)) ∧
     i (ns p) = i (ns (st r)) ∧ cell (ns p) = cell (ns (st r))) ∧
  (finished w →
     (∃ p0 e0, procs w !! 0 = Some p0 ∧
               electrode (ns (st 0)) = Some e0 ∧
               electrode (ns p0) = Some (merge e0 ((λ d, d.2) <$> recvs tr)) ∧
               results (ns p0) = Some ((λ d, d.2) <$> recvs tr)) ∧
     ∀ r p, r ≠ 0 → procs w !! r = Some p →
            electrode (ns p) = None ∧ results (ns p) = None).
Proof.
  intros HS Hrun out st.
  destruct (run_inv potential SIZE Xf Yf Zf c HS tr w Hrun)
    as (fl & arr & tr0 & Htr & Hcase).
  pose proof Htr as [Hnd Hranks Hsends Hrecvs Hbar].
  assert (∀ r, r ∈ fl ++ arr →
            r ≠ 0 ∧
            (∃ e, electrode (ns (st r)) = Some e ∧ out r = (x e, y e, z e, LFP e)) ∧
            i (ns (sent potential SIZE Xf Yf Zf c r)) = i (ns (st r)) ∧
            cell (ns (sent potential SIZE Xf Yf Zf c r)) = cell (ns (st r)))
    as Hsent.
  { intros r Hr. destruct (Hranks r Hr) as [Hr1 Hpc]. split; [lia|].
    destruct (sender_ready potential SIZE Xf Yf Zf c r ltac:(lia) Hpc) as [e He].
    subst st out. simpl. rewrite He. simpl. split; [|done].
    exists e. split; [done|]. by rewrite (outgoing_ready potential _ _ _ _ _ _ _ He). }
  split.
  - intros r p Hp Hin.
    assert (r ∈ fl ++ arr) as Hr.
    { eapply packet_inj. rewrite <- Hsends.
      destruct Hcase as [[-> _]|(-> & _)]; [done|]. by rewrite sends_barrier in Hin. }
    destruct (Hsent r Hr) as (Hr0 & He & Hi & Hc). split; [done|].
    assert (ns p = ns (sent potential SIZE Xf Yf Zf c r)) as ->.
    { destruct Hcase as [[_ ->]|(_ & -> & -> & _)].
      - apply gathering_lookup in Hp as [_ ->]. unfold proc_at.
        by rewrite decide_False, decide_True by done.
      - destruct (decide (r < SIZE)) as [Hlt|Hge].
        + rewrite (gathered_lookup potential) in Hp by done. injection Hp as <-.
          unfold proc_at. rewrite decide_False, decide_True by done.
          unfold after_barrier. by destruct (Nat.eqb_spec r 0).
        + apply lookup_lt_Some in Hp. unfold gathered, gathering in Hp.
          simpl in Hp. rewrite length_imap, length_fmap, length_seq in Hp. lia. }
    done.
  - intros Hfin.
    destruct (finished_root potential SIZE Xf Yf Zf c HS tr w Hrun Hfin)
      as (arr' & tr' & e0 & p0 & -> & Htr' & Hperm & -> & Hst & Hp0 & ->).
    split.
    + eexists _, e0. split; [exact Hp0|]. subst st. rewrite Hst. simpl.
      by rewrite recvs_barrier, (recvs_payloads potential _ _ _ _ _ _ _ _ Htr').
    + intros r p Hr0 Hp.
      assert (r < SIZE) as Hlt.
      { apply lookup_lt_Some in Hp. unfold gathered, gathering in Hp.
        simpl in Hp. by rewrite length_imap, length_fmap, length_seq in Hp. }
      rewrite (gathered_lookup potential) in Hp by done. injection Hp as <-.
      unfold proc_at. rewrite decide_False by done.
      rewrite decide_True by (simpl; rewrite Hperm; apply elem_of_seq; lia).
      unfold after_barrier. by destruct (Nat.eqb_spec r 0).
Qed.

Lemma nonroot_keeps_only_result_witness :
  let pot := λ (_ : unit) (_ : nat * nat * nat), @inr error unit () in
  ∃ p, procs (gathered pot 2 [0; 1; 2] [0; 0; 0] [5; 6; 7] () [1]) !! 1 = Some p ∧
       electrode (ns p) = None ∧ results (ns p) = None ∧
       result (ns p) = Some ([1], [0], [6], [()]).
Proof.
  intros pot.
  pose proof (run_schedule pot 2 [0; 1; 2] [0; 0; 0] [5; 6; 7] ()
                ltac:(lia) [1]
                ltac:(repeat constructor; by eexists) ltac:(done))
    as [Hrun _].
  destruct (proj1 (nonroot_keeps_only_result pot 2 _ _ _ () _ _ ltac:(lia) Hrun)
              1 _ eq_refl) as (_ & He & Hr & Hres & _).
  { do 2 constructor. }
  eexists. split; [reflexivity|]. by repeat split.
Defined.

(** The frame of C9 as it is stated does not hold: the send of rank 1
    leaves [electrode] and [results] absent, but [result], unbound before,
    now holds the message with the four arrays. *)
Lemma nonroot_frame_counterexample :
  let pot := λ (_ : unit) (_ : nat * nat * nat), @inr error unit () in
  let p := start pot 2 [0; 1; 2] [0; 0; 0] [5; 6; 7] () 1 in
  ∃ m p',
    on_send p = Some (m, 0, p') ∧
    ¬ (electrode (ns p') = None ∧ results (ns p') = None ∧
       result (ns p') = result (ns p) ∧
       i (ns p') = i (ns p) ∧ cell (ns p') = cell (ns p)).
Proof.
  intros pot p. eexists _, _. split; [reflexivity|].
  simpl. by intros (_ & _ & ? & _).
Qed.

(** ** A single rank *)

Lemma run_single {coord row cell_t : Type}
    (potential : cell_t → coord * coord * coord → exn row)
    (Xf Yf Zf : list coord) (c : cell_t)
    (tr : list (event coord row)) (w : world coord row cell_t) :
  run (init potential 1 Xf Yf Zf c) tr w →
  let p0 := start potential 1 Xf Yf Zf c 0 in
  sends tr = [] ∧ recvs tr = [] ∧
  (procs w = [p0] ∨ (procs w = [after_barrier 0 p0] ∧ pc p0 = L_barrier)).
Proof.
  intros Hrun p0.
  destruct (run_inv potential 1 Xf Yf Zf c ltac:(lia) tr w Hrun)
    as (fl & arr & tr0 & Htr & Hcase).
  pose proof Htr as [Hnd Hranks Hsends Hrecvs Hbar].
  assert (fl ++ arr = []) as Hnil.
  { destruct (fl ++ arr) as [|r l]; [done|].
    destruct (Hranks r) as [? _]; [by left|lia]. }
  apply app_eq_nil in Hnil as [-> ->]. simpl in *.
  apply Permutation_nil_r in Hsends.
  destruct Hcase as [[-> ->]|(-> & -> & _ & _ & e0 & Hst)].
  - split; [done|]. split; [done|]. by left.
  - rewrite sends_barrier, recvs_barrier.
    split; [done|]. split; [done|]. right. split; [done|].
    subst p0. by rewrite Hst.
Qed.

(** C3: with one rank the three slices are the full arrays, the receive
    loop has no turn, no message is sent or received, and merging nothing
    leaves an electrode as it is; the electrode of rank 0 is, before and
    after the barrier, the one a single simulation over the full ordered
    points yields, and the run completes; if that simulation raises, so
    does rank 0. *)
Theorem single_worker_serial {coord row cell_t : Type}
    (potential : cell_t → coord * coord * coord → exn row)
    (Xf Yf Zf : list coord) (c : cell_t) :
  let world0 := init potential 1 Xf Yf Zf c in
  electrodeParameters 0 1 Xf Yf Zf = inr (Xf, Yf, Zf) ∧
  xrange 1 1 = [] ∧
  (∀ e : RecExtElectrode coord row, merge e [] = e) ∧
  (∀ tr w, run world0 tr w → sends tr = [] ∧ recvs tr = []) ∧
  match simulate potential c {| x := Xf; y := Yf; z := Zf; LFP := [] |} with
  | inr e =>
      (∃ tr w, run world0 tr w ∧ finished w) ∧
      (∀ tr w, run world0 tr w →
               ∃ p, procs w = [p] ∧ electrode (ns p) = Some e)
  | inl err =>
      ∀ tr w, run world0 tr w →
              ¬ finished w ∧ ∃ p, procs w = [p] ∧ pc p = L_raised err
  end.
Proof.
  intros world0.
  assert (electrodeParameters 0 1 Xf Yf Zf = inr (Xf, Yf, Zf)) as Hparams.
  { unfold electrodeParameters. by rewrite !slice_full. }
  split; [done|]. split; [done|]. split; [done|].
  split; [intros tr w Hrun; by apply run_single in Hrun as (? & ? & _)|].
  destruct (simulate _ _ _) as [err|e] eqn:Hsim.
  - intros tr w Hrun. apply run_single in Hrun as (_ & _ & Hprocs).
    assert (start potential 1 Xf Yf Zf c 0
            = {| pc := L_raised err;
                 ns := {| electrode := Some {| x := Xf; y := Yf; z := Zf; LFP := [] |};
                          results := None; result := None; i := None; cell := c |} |})
      as Hst by (unfold start, boot; by rewrite Hparams, Hsim).
    rewrite Hst in Hprocs. destruct Hprocs as [Hprocs|[_ Hpc]]; [|done].
    split.
    + unfold finished. rewrite Hprocs. by intros [? _]%Forall_cons.
    + eexists. by split.
  - assert (start potential 1 Xf Yf Zf c 0 = {| pc := L_barrier; ns := ready c e |})
      as Hst by (unfold start, boot; by rewrite Hparams, Hsim).
    split.
    + destruct (run_schedule potential 1 Xf Yf Zf c ltac:(lia) []) as [Hrun Hfin].
      * repeat constructor. exists e. by rewrite Hst.
      * done.
      * by eexists _, _.
    + intros tr w Hrun. apply run_single in Hrun as (_ & _ & Hprocs).
      rewrite Hst in Hprocs. destruct Hprocs as [Hprocs|[Hprocs _]].
      * eexists. by split.
      * eexists. by split.
Qed.

(** ** The 11 x 11 grid on two ranks *)

Lemma elem_of_stride {A} W r (a : list A) v : 1 ≤ W → v ∈ stride W r a → v ∈ a.
Proof.
  intros HW [k Hk]%list_elem_of_lookup. rewrite stride_lookup in Hk by done.
  by eapply list_elem_of_lookup_2.
Qed.

Lemma stride_zip {A B} W r (a : list A) (b : list B) :
  stride W r (zip a b) = zip (stride W r a) (stride W r b).
Proof.
  revert r b. induction a as [|v a IH]; intros r b; [done|].
  destruct b as [|u b]; simpl.
  - by destruct r; simpl; rewrite ?zip_with_nil_r.
  - destruct r as [|r]; simpl; by rewrite IH.
Qed.

Lemma for_all_defined {A B} (f : A → exn B) l :
  Forall (λ a, ∃ b, f a = inr b) l → ∃ k, for_all f l = inr k.
Proof.
  induction 1 as [|a l [b Hb] _ [k Hk]]; simpl.
  - by eexists.
  - rewrite Hb, Hk. simpl. by eexists.
Qed.

(** Where the potential is defined at every point, every rank gets through
    its simulation. *)
Lemma all_started_of_defined {coord row cell_t : Type}
    (potential : cell_t → coord * coord * coord → exn row)
    (SIZE : nat) (Xf Yf Zf : list coord) (c : cell_t) :
  1 ≤ SIZE →
  (∀ pt, pt ∈ zip (zip Xf Yf) Zf → ∃ v, potential c pt = inr v) →
  all_started potential SIZE Xf Yf Zf c.
Proof.
  intros HS Hdef. apply Forall_forall. intros r _.
  unfold start, boot. rewrite electrodeParameters_ok by done.
  destruct (for_all_defined (potential c)
              (zip (zip (stride SIZE r Xf) (stride SIZE r Yf)) (stride SIZE r Zf)))
    as [lfp Hlfp].
  { rewrite <- !stride_zip. apply Forall_forall. intros pt Hpt.
    by apply Hdef, (elem_of_stride SIZE r). }
  unfold simulate, contacts. simpl. rewrite Hlfp. simpl.
  eexists. by destruct (Nat.eqb r 0).
Qed.

(** C6: the grid has 121 points; with two ranks, rank 0 is handed the 61
    points of even index and rank 1 the 60 points of odd index; when the
    potential is defined at every grid point and the run completes, the
    merged electrode holds 121 contacts, without a repetition, which are
    the 121 grid points, and 121 rows. *)
Theorem grid_two_workers {row cell_t : Type}
    (potential : cell_t → Z * Z * Z → exn row) (c : cell_t)
    (tr : list (event Z row)) (w : world Z row cell_t) :
  let Xf := Grid.flatten Grid.X in
  let Yf := Grid.flatten Grid.Y in
  let Zf := Grid.flatten Grid.Z_ in
  let grid := zip (zip Xf Yf) Zf in
  (∀ pt, pt ∈ grid → ∃ v, potential c pt = inr v) →
  run (init potential 2 Xf Yf Zf c) tr w → finished w →
  length grid = 121 ∧ NoDup grid ∧
  (∃ xs ys zs,
     electrodeParameters 0 2 Xf Yf Zf = inr (xs, ys, zs) ∧
     length (zip (zip xs ys) zs) = 61 ∧
     Forall2 (λ j pt, grid !! j = Some pt)
             ((λ k, 2 * k) <$> seq 0 61) (zip (zip xs ys) zs)) ∧
  (∃ xs ys zs,
     electrodeParameters 1 2 Xf Yf Zf = inr (xs, ys, zs) ∧
     length (zip (zip xs ys) zs) = 60 ∧
     Forall2 (λ j pt, grid !! j = Some pt)
             ((λ k, 2 * k + 1) <$> seq 0 60) (zip (zip xs ys) zs)) ∧
  ∃ p e,
    procs w !! 0 = Some p ∧ electrode (ns p) = Some e ∧
    length (contacts e) = 121 ∧ length (LFP e) = 121 ∧
    NoDup (contacts e) ∧ contacts e ≡ₚ grid.
Proof.
  intros Xf Yf Zf grid Hdef Hrun Hfin.
  assert (length grid = 121) as Hlen by (by vm_compute).
  assert (NoDup grid) as Hnd.
  { apply (bool_decide_unpack (NoDup grid)). by vm_compute. }
  split; [done|]. split; [done|].
  assert (∀ r, ∃ xs ys zs,
            electrodeParameters r 2 Xf Yf Zf = inr (xs, ys, zs) ∧
            zip (zip xs ys) zs = stride 2 r grid ∧
            Forall2 (λ j pt, grid !! j = Some pt) (stride 2 r (seq 0 121))
                    (zip (zip xs ys) zs)) as Hpart.
  { intros r. eexists _, _, _. split; [apply electrodeParameters_ok; lia|].
    rewrite <- !stride_zip. split; [done|].
    rewrite <- Hlen. apply stride_indices. lia. }
  split; [|split].
  - destruct (Hpart 0) as (xs & ys & zs & Hp & Heq & Hidx).
    exists xs, ys, zs. split; [done|]. split; [rewrite Heq; by vm_compute|].
    exact Hidx.
  - destruct (Hpart 1) as (xs & ys & zs & Hp & Heq & Hidx).
    exists xs, ys, zs. split; [done|]. split; [rewrite Heq; by vm_compute|].
    exact Hidx.
  - destruct (finished_merged potential 2 Xf Yf Zf c tr w ltac:(lia) eq_refl eq_refl
                Hrun Hfin)
      as (p & e0 & e & idx & Hp & He & _ & _ & _ & _ & _ & _ & Hperm & Hal & _).
    exists p, e. split; [done|]. split; [done|].
    assert (length (contacts e) = 121) as Hlc by (by rewrite Hperm).
    split; [done|]. split; [|split; [by rewrite Hperm|done]].
    destruct Hal as (Hxy & Hyz & Hzl). unfold contacts in Hlc.
    rewrite !length_zip_with in Hlc. lia.
Qed.

Lemma grid_two_workers_witness :
  let pot := λ (_ : unit) (_ : Z * Z * Z), @inr error unit () in
  let Xf := Grid.flatten Grid.X in
  let Yf := Grid.flatten Grid.Y in
  let Zf := Grid.flatten Grid.Z_ in
  ∃ p e,
    procs (gathered pot 2 Xf Yf Zf () [1]) !! 0 = Some p ∧
    electrode (ns p) = Some e ∧
    length (contacts e) = 121 ∧ NoDup (contacts e).
Proof.
  intros pot Xf Yf Zf.
  pose proof (run_schedule pot 2 Xf Yf Zf () ltac:(lia) [1]
                ltac:(repeat constructor; by eexists) ltac:(done))
    as [Hrun Hfin].
  destruct (grid_two_workers pot () _ _ ltac:(intros; by eexists) Hrun Hfin)
    as (_ & _ & _ & _ & p & e & Hp & He & Hlen & _ & Hnd & _).
  by exists p, e.
Defined.

(** ** The forward model *)

Section SolverFacts.
Import ForwardModel.
Variable sigma : R.
Variable method : SourceModel.
Variable line_kernel : point → point → point → R.

Local Abbreviation pot := (potential sigma method line_kernel).
Local Abbreviation geom := (geometry method line_kernel).
Local Abbreviation scaled k :=
  (λ cm, {| c_start := c_start cm; c_end := c_end cm; c_diam := c_diam cm;
            c_imem := Rmult k <$> c_imem cm |}).

Lemma current_scaled k cm t :
  current (scaled k cm) t = (k * current cm t)%R.
Proof.
  unfold current. simpl. generalize (c_imem cm). intros l. revert t.
  induction l as [|v l IH]; intros [|t]; simpl; try lra. apply IH.
Qed.

Lemma superpose_scaled k cms gs t :
  superpose (scaled k <$> cms) gs t = (k * superpose cms gs t)%R.
Proof.
  revert gs. induction cms as [|cm cms IH]; intros [|g gs]; simpl; try lra.
  rewrite IH, current_scaled. lra.
Qed.

(** The geometric factors do not look at the currents. *)
Lemma geometry_scaled k cell p (f : nat → nat) cms :
  for_all (geom (scale_currents k cell) p) (imap (λ j, pair (f j)) (scaled k <$> cms))
  = for_all (geom cell p) (imap (λ j, pair (f j)) cms).
Proof.
  revert f. induction cms as [|cm cms IH]; intros f; [done|].
  cbn [fmap list_fmap imap for_all].
  pose proof (IH (f ∘ S)) as IH'. unfold compose in *. cbv beta in *.
  rewrite IH'. reflexivity.
Qed.


End SolverFacts.

(** ** A rank whose simulation raises *)

Lemma for_all_fails {A B} (f : A → exn B) (E : error) l :
  (∀ a err, f a = inl err → err = E) →
  (for_all f l = inl E ↔ ∃ a, a ∈ l ∧ f a = inl E) ∧
  (∀ err, for_all f l = inl err → err = E).
Proof.
  intros Honly. split; [split|].
  - intros (l1 & a & l2 & -> & Ha & _)%for_all_inl. exists a. split; [|done].
    apply elem_of_app. right. by left.
  - intros (a & Hin & Ha). induction l as [|a' l IH]; [by apply elem_of_nil in Hin|].
    simpl. destruct (f a') as [err|b] eqn:Ha'.
    + simpl. by rewrite (Honly _ _ Ha').
    + simpl. apply elem_of_cons in Hin as [->|Hin]; [congruence|].
      by rewrite (IH Hin).
  - intros err (l1 & a & l2 & -> & Ha & _)%for_all_inl. by eapply Honly.
Qed.

(** A rank that raised before its first MPI call stays as it is, sends
    nothing, and the run never completes. *)
Lemma raised_rank_stuck {coord row cell_t : Type}
    (potential : cell_t → coord * coord * coord → exn row)
    (SIZE : nat) (Xf Yf Zf : list coord) (c : cell_t)
    (tr : list (event coord row)) (w : world coord row cell_t) (r : nat) err :
  1 ≤ SIZE → r < SIZE →
  pc (start potential SIZE Xf Yf Zf c r) = L_raised err →
  run (init potential SIZE Xf Yf Zf c) tr w →
  procs w !! r = Some (start potential SIZE Xf Yf Zf c r) ∧
  (∀ d m, (r, d, m) ∉ sends tr) ∧
  ¬ finished w.
Proof.
  intros HS Hr Hpc Hrun.
  destruct (run_inv potential SIZE Xf Yf Zf c HS tr w Hrun)
    as (fl & arr & tr0 & Htr & Hcase).
  pose proof Htr as [Hnd Hranks Hsends Hrecvs Hbar].
  assert (r ∉ fl ++ arr) as Hnin.
  { intros Hin. destruct (Hranks r Hin) as [_ Hs]. by rewrite Hs in Hpc. }
  destruct Hcase as [[-> ->]|(-> & -> & -> & Hfull & e0 & Hst)].
  - assert (procs (gathering potential SIZE Xf Yf Zf c fl arr) !! r
            = Some (start potential SIZE Xf Yf Zf c r)) as Hp.
    { rewrite (gathering_lookup_2 potential) by done. unfold proc_at.
      destruct (decide (r = 0)) as [->|Hr0].
      - by rewrite (root_at_raised potential _ _ _ _ _ err).
      - by rewrite decide_False. }
    split; [done|]. split.
    + intros d m Hin. rewrite Hsends in Hin.
      apply list_elem_of_fmap in Hin as (s & Hs & Hin).
      unfold packet in Hs. by injection Hs as -> _ _.
    + intros Hfin. unfold finished in Hfin. rewrite Forall_lookup in Hfin.
      by rewrite (Hfin _ _ Hp) in Hpc.
  - exfalso. destruct (decide (r = 0)) as [->|Hr0].
    + rewrite Hst in Hpc. simpl in Hpc. by destruct (xrange 1 SIZE).
    + apply Hnin. simpl. rewrite Hfull. apply elem_of_seq. lia.
Qed.

Section DegenerateFacts.
Import ForwardModel.
Variable sigma : R.
Variable method : SourceModel.
Variable line_kernel : point → point → point → R.
Hypothesis sigma_pos : (0 < sigma)%R.

Local Abbreviation pot := (potential sigma method line_kernel).
Local Abbreviation geom := (geometry method line_kernel).

(** The point lies on the source geometry of some compartment. *)
Local Abbreviation coincides cell p :=
  (∃ k cm, compartments cell !! k = Some cm ∧
           source_distance method cell k cm p = 0%R).

Lemma geometry_fails cell p kc err :
  geom cell p kc = inl err →
  err = DegenerateGeometryError ∧ source_distance method cell kc.1 kc.2 p = 0%R.
Proof.
  unfold geometry. destruct (Req_dec_T _ _) as [H0|Hne]; [|done].
  by intros [= <-].
Qed.

Lemma potential_fails cell p :
  (pot cell p = inl DegenerateGeometryError ↔ coincides cell p) ∧
  (∀ err, pot cell p = inl err → err = DegenerateGeometryError).
Proof.
  unfold potential. destruct (Rle_dec sigma 0) as [Hle|_]; [lra|].
  destruct (for_all_fails (geom cell p) DegenerateGeometryError
              (imap pair (compartments cell))) as [Hiff Honly].
  { intros kc err Herr. by apply geometry_fails in Herr as [-> _]. }
  split.
  - etrans; [|etrans; [exact Hiff|]].
    + destruct (for_all _ _); simpl; [done|]. split; discriminate.
    + split.
      * intros (kc & Hin & Hkc).
        apply elem_of_lookup_imap in Hin as (k & cm & -> & Hcm).
        apply geometry_fails in Hkc as [_ Hd]. by exists k, cm.
      * intros (k & cm & Hcm & Hd). exists (k, cm). split.
        -- apply elem_of_lookup_imap. by exists k, cm.
        -- unfold geometry. simpl.
           destruct (Req_dec_T (source_distance method cell k cm p) 0) as [|Hne];
             [done|by destruct Hne].
  - intros err. destruct (for_all _ _) as [err'|gs] eqn:Hgs; simpl; [|done].
    intros [= <-]. by apply Honly.
Qed.

Lemma simulate_fails cell (e : RecExtElectrode R (list R)) :
  (simulate pot cell e = inl DegenerateGeometryError ↔
   ∃ p, p ∈ contacts e ∧ coincides cell p) ∧
  (∀ err, simulate pot cell e = inl err → err = DegenerateGeometryError).
Proof.
  destruct (for_all_fails (pot cell) DegenerateGeometryError (contacts e))
    as [Hiff Honly].
  { intros p err. apply potential_fails. }
  unfold simulate. split.
  - etrans; [|etrans; [exact Hiff|]].
    + destruct (for_all _ _); simpl; [|split; discriminate].
      split; by intros [= ->].
    + split; intros (p & Hin & Hp); exists p; (split; [done|]);
        by apply potential_fails.
  - intros err. destruct (for_all _ _) as [err'|lfp] eqn:Hlfp; simpl; [|done].
    intros [= <-]. by apply Honly.
Qed.

End DegenerateFacts.



(** * Further properties of the script *)

(** ** The size and the order of a rank's share *)

Lemma stride_length_formula {A} W r (a : list A) :
  1 ≤ W → length (stride W r a) = (length a + W - 1 - r) / W.
Proof.
  intros HW. revert r. induction a as [|v a IH]; intros r.
  - simpl. symmetry. apply Nat.div_small. lia.
  - destruct r as [|r]; simpl.
    + rewrite IH. replace (length a + W - 1 - (W - 1)) with (length a) by lia.
      trans ((length a + 1 * W) / W); [rewrite Nat.div_add by lia; lia|].
      f_equal. lia.
    + rewrite IH. f_equal. lia.
Qed.

Lemma stride_sublist {A} W r (a : list A) : stride W r a `sublist_of` a.
Proof.
  revert r. induction a as [|v a IH]; intros r; [constructor|].
  destruct r as [|r]; simpl.
  - apply sublist_skip, IH.
  - apply sublist_cons, IH.
Qed.

(** X1: rank [r] of [W] is handed [ceil((N - r) / W)] of the [N] contacts;
    a lower rank never gets fewer than a higher one, and no two ranks
    differ by more than one contact. *)
Theorem partition_sizes_balanced {coord} (Xf Yf Zf : list coord) (W r1 r2 : nat) :
  1 ≤ W → r1 ≤ r2 → r2 < W →
  length Yf = length Xf → length Zf = length Xf →
  ∃ xs1 ys1 zs1 xs2 ys2 zs2,
    electrodeParameters r1 W Xf Yf Zf = inr (xs1, ys1, zs1) ∧
    electrodeParameters r2 W Xf Yf Zf = inr (xs2, ys2, zs2) ∧
    length (zip (zip xs1 ys1) zs1) = (length Xf + W - 1 - r1) / W ∧
    length (zip (zip xs2 ys2) zs2) = (length Xf + W - 1 - r2) / W ∧
    length (zip (zip xs2 ys2) zs2) ≤ length (zip (zip xs1 ys1) zs1) ∧
    length (zip (zip xs1 ys1) zs1) ≤ length (zip (zip xs2 ys2) zs2) + 1.
Proof.
  intros HW H12 H2 HY HZ.
  eexists _, _, _, _, _, _.
  split; [by apply electrodeParameters_ok|].
  split; [by apply electrodeParameters_ok|].
  rewrite !length_zip_with, !stride_length_formula, HY, HZ, !Nat.min_id by done.
  split; [done|]. split; [done|]. split.
  - apply Nat.Div0.div_le_mono. lia.
  - trans ((length Xf + W - 1 - r2 + 1 * W) / W).
    + apply Nat.Div0.div_le_mono. lia.
    + rewrite Nat.div_add by lia. lia.
Qed.

Lemma partition_sizes_balanced_witness :
  ∃ xs1 ys1 zs1 xs2 ys2 zs2,
    electrodeParameters 0 3 [1; 2; 3; 4; 5; 6; 7] [0; 0; 0; 0; 0; 0; 0]
                        [7; 6; 5; 4; 3; 2; 1] = inr (xs1, ys1, zs1) ∧
    electrodeParameters 2 3 [1; 2; 3; 4; 5; 6; 7] [0; 0; 0; 0; 0; 0; 0]
                        [7; 6; 5; 4; 3; 2; 1] = inr (xs2, ys2, zs2) ∧
    length (zip (zip xs1 ys1) zs1) = 3 ∧ length (zip (zip xs2 ys2) zs2) = 2.
Proof.
  destruct (partition_sizes_balanced [1; 2; 3; 4; 5; 6; 7] [0; 0; 0; 0; 0; 0; 0]
              [7; 6; 5; 4; 3; 2; 1] 3 0 2 ltac:(lia) ltac:(lia) ltac:(lia)
              eq_refl eq_refl)
    as (xs1 & ys1 & zs1 & xs2 & ys2 & zs2 & H1 & H2 & Hl1 & Hl2 & _).
  by exists xs1, ys1, zs1, xs2, ys2, zs2.
Defined.

(** X2: slicing the three coordinate arrays one by one is slicing the list
    of points, whatever the lengths of the arrays; a rank's contacts are
    points of the full list, in the order of the full list. *)
Theorem slices_are_slice_of_points {coord} (Xf Yf Zf : list coord) (RANK SIZE : nat) :
  1 ≤ SIZE →
  ∃ xs ys zs,
    electrodeParameters RANK SIZE Xf Yf Zf = inr (xs, ys, zs) ∧
    slice RANK SIZE (zip (zip Xf Yf) Zf) = Some (zip (zip xs ys) zs) ∧
    zip (zip xs ys) zs `sublist_of` zip (zip Xf Yf) Zf ∧
    ∀ k, zip (zip xs ys) zs !! k = zip (zip Xf Yf) Zf !! (RANK + k * SIZE).
Proof.
  intros HS. eexists _, _, _. split; [by apply electrodeParameters_ok|].
  rewrite <- !stride_zip. split; [by apply slice_is_Some|].
  split; [apply stride_sublist|]. intros k. by apply stride_lookup.
Qed.

Lemma slices_are_slice_of_points_witness :
  ∃ xs ys zs,
    electrodeParameters 1 2 [1; 2; 3; 4; 5] [0; 0; 0] [7; 6; 5; 4] = inr (xs, ys, zs) ∧
    zip (zip xs ys) zs = [(2, 0, 6)].
Proof.
  destruct (slices_are_slice_of_points [1; 2; 3; 4; 5] [0; 0; 0] [7; 6; 5; 4] 1 2
              ltac:(lia)) as (xs & ys & zs & Hp & Hs & _).
  exists xs, ys, zs. split; [done|]. by injection Hs as <-.
Defined.

(** ** The grid of [np.mgrid] *)

Lemma join_rows_length {T} (f : nat → list T) n m :
  (∀ k, k < m → length (f k) = n) → length (mjoin (f <$> seq 0 m)) = m * n.
Proof.
  induction m as [|m IH]; intros Hlen; [done|].
  rewrite seq_S, fmap_app, join_app, length_app, IH by (intros; apply Hlen; lia).
  simpl. rewrite app_nil_r, Hlen by lia. lia.
Qed.

Lemma join_rows_lookup {T} (f : nat → list T) n m i j :
  (∀ k, k < m → length (f k) = n) → i < m → j < n →
  mjoin (f <$> seq 0 m) !! (i * n + j) = f i !! j.
Proof.
  induction m as [|m IH]; intros Hlen Hi Hj; [lia|].
  rewrite seq_S, fmap_app, join_app. simpl. rewrite app_nil_r.
  assert (length (mjoin (f <$> seq 0 m)) = m * n) as Hm
    by (apply join_rows_length; intros; apply Hlen; lia).
  destruct (decide (i < m)) as [Hlt|Hge].
  - rewrite lookup_app_l by (rewrite Hm; nia).
    apply IH; [intros; apply Hlen; lia|done..].
  - assert (i = m) as -> by lia.
    rewrite lookup_app_r by (rewrite Hm; lia).
    f_equal. rewrite Hm. lia.
Qed.

Section GridFacts.
Import Grid.
Variables (lo1 hi1 lo2 hi2 c : Z).

Local Abbreviation n1 := (Z.to_nat (hi1 - lo1)).
Local Abbreviation n2 := (Z.to_nat (hi2 - lo2)).
Local Abbreviation gx := (flatten (times c (fst (mgrid lo1 hi1 lo2 hi2)))).
Local Abbreviation gz := (flatten (times c (snd (mgrid lo1 hi1 lo2 hi2)))).
Local Abbreviation gy := (flatten (zeros_like (times c (fst (mgrid lo1 hi1 lo2 hi2))))).

Lemma grid_x_rows :
  gx = mjoin ((λ k, (λ _, c * (lo1 + Z.of_nat k))%Z <$> seq 0 n2) <$> seq 0 n1).
Proof.
  unfold flatten, times, mgrid, arange. simpl. f_equal.
  rewrite <- !list_fmap_compose. apply list_fmap_ext. intros _ k _. simpl.
  by rewrite <- !list_fmap_compose.
Qed.

Lemma grid_z_rows :
  gz = mjoin ((λ _, (λ k, c * (lo2 + Z.of_nat k))%Z <$> seq 0 n2) <$> seq 0 n1).
Proof.
  unfold flatten, times, mgrid, arange. simpl. f_equal.
  rewrite <- !list_fmap_compose. apply list_fmap_ext. intros _ k _. simpl.
  by rewrite <- !list_fmap_compose.
Qed.

Lemma grid_y_rows :
  gy = mjoin ((λ _, (λ _, 0%Z) <$> seq 0 n2) <$> seq 0 n1).
Proof.
  unfold flatten, zeros_like, times, mgrid, arange. simpl. f_equal.
  rewrite <- !list_fmap_compose. apply list_fmap_ext. intros _ k _. simpl.
  by rewrite <- !list_fmap_compose.
Qed.

Lemma grid_lookup i j :
  i < n1 → j < n2 →
  gx !! (i * n2 + j) = Some (c * (lo1 + Z.of_nat i))%Z ∧
  gy !! (i * n2 + j) = Some 0%Z ∧
  gz !! (i * n2 + j) = Some (c * (lo2 + Z.of_nat j))%Z.
Proof.
  intros Hi Hj. rewrite grid_x_rows, grid_y_rows, grid_z_rows.
  rewrite !(join_rows_lookup _ n2) by (done || intros; by rewrite length_fmap, length_seq).
  by rewrite !list_lookup_fmap, !lookup_seq_lt.
Qed.

Lemma grid_length :
  length gx = n1 * n2 ∧ length gy = n1 * n2 ∧ length gz = n1 * n2.
Proof.
  rewrite grid_x_rows, grid_y_rows, grid_z_rows.
  by rewrite !(join_rows_length _ n2) by (intros; by rewrite length_fmap, length_seq).
Qed.

End GridFacts.



(** ** Runs: progress, length, conservation *)

Lemma events_count {coord row} (tr : list (event coord row)) :
  length tr = length (sends tr) + length (recvs tr) + barriers tr.
Proof.
  induction tr as [|ev tr IH]; [done|].
  destruct ev as [s d m|d s m|].
  - change (sends (EvSend s d m :: tr)) with ((s, d, m) :: sends tr).
    change (recvs (EvSend s d m :: tr)) with (recvs tr).
    change (barriers (EvSend s d m :: tr)) with (barriers tr).
    simpl. lia.
  - change (sends (EvRecv d s m :: tr)) with (sends tr).
    change (recvs (EvRecv d s m :: tr)) with ((d, s, m) :: recvs tr).
    change (barriers (EvRecv d s m :: tr)) with (barriers tr).
    simpl. lia.
  - change (sends (EvBarrier :: tr)) with (sends tr).
    change (recvs (EvBarrier :: tr)) with (recvs tr).
    change (barriers (EvBarrier :: tr)) with (S (barriers tr)).
    simpl. lia.
Qed.

Section FurtherRuns.
Context {coord row cell_t : Type}.
Variable potential : cell_t → coord * coord * coord → exn row.
Variables (SIZE : nat) (Xf Yf Zf : list coord) (c : cell_t).
Hypothesis SIZE_pos : 1 ≤ SIZE.

Local Abbreviation st := (start potential SIZE Xf Yf Zf c).
Local Abbreviation out := (outgoing potential SIZE Xf Yf Zf c).
Local Abbreviation snt := (sent potential SIZE Xf Yf Zf c).
Local Abbreviation root := (root_at potential SIZE Xf Yf Zf c).
Local Abbreviation at_ := (proc_at potential SIZE Xf Yf Zf c).
Local Abbreviation pkt := (packet potential SIZE Xf Yf Zf c).
Local Abbreviation during := (gathering potential SIZE Xf Yf Zf c).
Local Abbreviation done_ := (gathered potential SIZE Xf Yf Zf c).
Local Abbreviation traced := (gather_trace potential SIZE Xf Yf Zf c).
Local Abbreviation world0 := (init potential SIZE Xf Yf Zf c).
Implicit Types (r s : nat) (arr fl : list nat) (tr : list (event coord row)).

Lemma run_sends_from fl arr l :
  NoDup l →
  (∀ r, r ∈ l → 1 ≤ r < SIZE ∧ pc (st r) = L_send ∧ r ∉ fl ++ arr) →
  run (during fl arr) ((λ r, EvSend r 0 (out r)) <$> l) (during (fl ++ l) arr).
Proof.
  induction l as [|r l IH] using rev_ind; intros Hnd Hl.
  - rewrite app_nil_r. constructor.
  - apply NoDup_app in Hnd as (Hnd & Hnew & _).
    assert (r ∉ l) as Hr.
    { intros Hin. apply (Hnew r Hin). by left. }
    destruct (Hl r) as (Hrange & Hpc & Hfresh); [apply elem_of_app; right; by left|].
    assert (r ∉ (fl ++ l) ++ arr) as Hfresh'.
    { rewrite !elem_of_app in *. tauto. }
    rewrite fmap_app, (assoc_L (++) fl). simpl.
    rewrite <- (gathering_send potential) by (done || lia).
    eapply run_snoc.
    + apply IH; [done|]. intros v Hv. apply Hl, elem_of_app. auto.
    + eapply step_send.
      * rewrite (gathering_lookup_2 potential) by lia.
        unfold proc_at. by rewrite !decide_False by (done || lia).
      * apply (on_send_start_2 potential); [lia|done].
Qed.

(** From wherever a run stands, when no rank raised, the ranks that have
    not sent can send, rank 0 can receive all that is in flight, and the
    barrier lets everybody through. *)
Lemma run_can_finish tr w :
  all_started potential SIZE Xf Yf Zf c →
  run world0 tr w → ∃ tr' w', run w tr' w' ∧ finished w'.
Proof.
  intros Hall Hrun.
  destruct (all_started_inv potential SIZE Xf Yf Zf c SIZE_pos 0 Hall SIZE_pos)
    as [e0 Hst]. simpl in Hst.
  destruct (run_inv potential SIZE Xf Yf Zf c SIZE_pos tr w Hrun)
    as (fl & arr & tr0 & Htr & Hcase).
  destruct Hcase as [[_ ->]|(_ & -> & _ & Hperm & _)].
  - pose proof Htr as [Hnd Hranks _ _ _].
    set (rest := filter (λ r, r ∉ fl ++ arr) (seq 1 (SIZE - 1))).
    assert (NoDup rest) as Hndr by apply NoDup_filter, NoDup_seq.
    assert (∀ r, r ∈ rest → 1 ≤ r < SIZE ∧ pc (st r) = L_send ∧ r ∉ fl ++ arr)
      as Hrest.
    { intros r [Hr Hin]%list_elem_of_filter. apply elem_of_seq in Hin.
      split; [lia|]. split; [|done].
      destruct (all_started_inv potential SIZE Xf Yf Zf c SIZE_pos r Hall ltac:(lia))
        as [e He]. rewrite He. simpl. by destruct (Nat.eqb_spec r 0); [lia|]. }
    assert (NoDup ((fl ++ rest) ++ arr)) as Hnd'.
    { rewrite <- (assoc_L (++)), (Permutation_app_comm rest), (assoc_L (++)).
      apply NoDup_app. split; [done|]. split; [|done].
      intros r Hr Hr'. by destruct (Hrest r Hr') as (_ & _ & ?). }
    assert (arr ++ fl ++ rest ≡ₚ seq 1 (SIZE - 1)) as Hperm.
    { apply NoDup_Permutation; [|apply NoDup_seq|].
      - by rewrite (Permutation_app_comm arr).
      - intros r. rewrite elem_of_seq, !elem_of_app. split.
        + intros [Hr|[Hr|Hr]].
          * destruct (Hranks r) as [? _]; [apply elem_of_app; auto|lia].
          * destruct (Hranks r) as [? _]; [apply elem_of_app; auto|lia].
          * destruct (Hrest r Hr) as [? _]. lia.
        + intros Hr. destruct (decide (r ∈ fl ++ arr)) as [Hin|Hnin].
          * apply elem_of_app in Hin. tauto.
          * right. right. apply list_elem_of_filter. split; [done|].
            apply elem_of_seq. lia. }
    pose proof (run_sends_from fl arr rest Hndr Hrest) as Hsend.
    assert (length arr + length (fl ++ rest) ≤ SIZE - 1) as Hlen
      by (by rewrite <- length_app, Hperm, length_seq).
    pose proof (run_recvs potential SIZE Xf Yf Zf c SIZE_pos e0 (fl ++ rest) Hst
                  [] arr Hlen) as Hrecv.
    rewrite app_nil_r in Hrecv.
    exists ((((λ r, EvSend r 0 (out r)) <$> rest)
             ++ ((λ r, EvRecv 0 r (out r)) <$> fl ++ rest)) ++ [EvBarrier]),
           (done_ (arr ++ fl ++ rest)).
    split; [|by eapply (gathered_finished potential)].
    eapply run_snoc; [by eapply run_app|].
    apply (step_barrier (during [] (arr ++ fl ++ rest))).
    by eapply (barrier_enabled potential).
  - exists [], (done_ arr). split; [constructor|].
    by eapply (gathered_finished potential).
Qed.

Lemma finished_all_started tr w :
  run world0 tr w → finished w → all_started potential SIZE Xf Yf Zf c.
Proof.
  intros Hrun Hfin.
  destruct (finished_inv potential SIZE Xf Yf Zf c SIZE_pos tr w Hrun Hfin)
    as (arr & tr0 & e0 & _ & _ & [_ Hranks _ _ _] & Hperm & Hst).
  apply Forall_forall. intros r [_ Hr]%elem_of_seq. simpl in Hr.
  destruct (decide (r = 0)) as [->|Hr0].
  - exists e0. by rewrite Hst.
  - destruct (Hranks r) as [_ Hpc].
    { simpl. rewrite Hperm. apply elem_of_seq. lia. }
    by apply (sender_ready potential).
Qed.

End FurtherRuns.

(** X4: a run can complete exactly when no rank raised before its first MPI
    call. Then no reachable world is a dead end: every run can be continued
    to a completed one. When a rank did raise, it stays as it is, the
    barrier never lets anybody through, and no run completes. *)
Theorem gather_completes_iff_all_started {coord row cell_t : Type}
    (potential : cell_t → coord * coord * coord → exn row)
    (SIZE : nat) (Xf Yf Zf : list coord) (c : cell_t) :
  1 ≤ SIZE →
  let world0 := init potential SIZE Xf Yf Zf c in
  ((∃ tr w, run world0 tr w ∧ finished w) ↔ all_started potential SIZE Xf Yf Zf c) ∧
  (all_started potential SIZE Xf Yf Zf c →
   ∀ tr w, run world0 tr w → ∃ tr' w', run w tr' w' ∧ finished w') ∧
  (∀ r err, r < SIZE → pc (start potential SIZE Xf Yf Zf c r) = L_raised err →
   ∀ tr w, run world0 tr w →
     ¬ finished w ∧ barriers tr = 0 ∧
     procs w !! r = Some (start potential SIZE Xf Yf Zf c r)).
Proof.
  intros HS world0. split; [split|split].
  - intros (tr & w & Hrun & Hfin). by eapply finished_all_started.
  - intros Hall.
    destruct (run_can_finish potential SIZE Xf Yf Zf c HS [] world0 Hall)
      as (tr & w & Hrun & Hfin); [constructor|]. by exists tr, w.
  - intros Hall tr w Hrun. by eapply run_can_finish.
  - intros r err Hr Hpc tr w Hrun.
    destruct (raised_rank_stuck potential SIZE Xf Yf Zf c tr w r err HS Hr Hpc Hrun)
      as (Hp & _ & Hnf).
    split; [done|]. split; [|done].
    destruct (run_inv potential SIZE Xf Yf Zf c HS tr w Hrun)
      as (fl & arr & tr0 & [_ _ _ _ Hb] & [[-> _]|(_ & -> & _ & Hperm & e0 & Hst)]);
      [done|].
    destruct Hnf. by eapply (gathered_finished potential).
Qed.

Lemma gather_completes_iff_all_started_witness :
  let pot := λ (_ : unit) (_ : nat * nat * nat), @inr error unit () in
  ∃ tr w, run (init pot 3 [0; 1; 2; 3] [0; 0; 0; 0] [5; 6; 7; 8] ()) tr w ∧ finished w.
Proof.
  intros pot.
  apply (proj1 (gather_completes_iff_all_started pot 3 [0; 1; 2; 3] [0; 0; 0; 0]
                  [5; 6; 7; 8] () ltac:(lia))).
  repeat constructor; by eexists.
Defined.

(** X5: a run has at most [SIZE - 1] sends, never more receives than sends,
    at most one barrier, so at most [2 * (SIZE - 1) + 1] events; a run that
    completes has exactly that many. *)
Theorem run_length_bounded {coord row cell_t : Type}
    (potential : cell_t → coord * coord * coord → exn row)
    (SIZE : nat) (Xf Yf Zf : list coord) (c : cell_t)
    (tr : list (event coord row)) (w : world coord row cell_t) :
  1 ≤ SIZE →
  run (init potential SIZE Xf Yf Zf c) tr w →
  length (sends tr) ≤ SIZE - 1 ∧
  length (recvs tr) ≤ length (sends tr) ∧
  barriers tr ≤ 1 ∧
  length tr ≤ 2 * (SIZE - 1) + 1 ∧
  (finished w → length tr = 2 * (SIZE - 1) + 1 ∧ barriers tr = 1).
Proof.
  intros HS Hrun.
  destruct (run_inv potential SIZE Xf Yf Zf c HS tr w Hrun)
    as (fl & arr & tr0 & Htr & Hcase).
  pose proof Htr as [Hnd Hranks Hsends Hrecvs Hbar].
  assert (length (fl ++ arr) ≤ SIZE - 1) as Hlen.
  { apply NoDup_ranks_length; [done|]. intros r Hr.
    replace (S (SIZE - 1)) with SIZE by lia. by apply Hranks. }
  assert (length (sends tr0) = length (fl ++ arr)) as Hls
    by (by rewrite Hsends, length_fmap).
  assert (length (recvs tr0) = length arr) as Hlr
    by (by rewrite Hrecvs, length_fmap).
  rewrite length_app in Hlen, Hls.
  pose proof (events_count tr0) as Hc0. rewrite Hls, Hlr, Hbar in Hc0.
  destruct Hcase as [[-> ->]|(-> & -> & -> & Hperm & e0 & Hst)].
  - do 4 (split; [lia|]). intros Hfin.
    destruct (finished_inv potential SIZE Xf Yf Zf c HS _ _ Hrun Hfin)
      as (arr' & tr' & e' & Heq & _ & [_ _ _ _ Hb'] & _).
    rewrite Heq, barriers_snoc, Hb' in Hbar. unfold barriers in Hbar at 1.
    simpl in Hbar. lia.
  - apply Permutation_length in Hperm. rewrite length_seq in Hperm.
    simpl in Hlen, Hls, Hc0.
    assert (barriers (tr0 ++ [EvBarrier]) = 1) as Hb1
      by (rewrite barriers_snoc, Hbar; done).
    rewrite sends_barrier, recvs_barrier, Hls, Hlr, Hb1, length_app, Hc0.
    simpl. lia.
Qed.

Lemma run_length_bounded_witness :
  let pot := λ (_ : unit) (_ : nat * nat * nat), @inr error unit () in
  length (schedule pot 3 [0; 1; 2; 3] [0; 0; 0; 0] [5; 6; 7; 8] () [2; 1]) ≤ 5.
Proof.
  intros pot.
  pose proof (run_schedule pot 3 [0; 1; 2; 3] [0; 0; 0; 0] [5; 6; 7; 8] ()
                ltac:(lia) [2; 1]
                ltac:(repeat constructor; by eexists) ltac:(apply perm_swap))
    as [Hrun _].
  exact (proj1 (proj2 (proj2 (proj2
           (run_length_bounded pot 3 _ _ _ () _ _ ltac:(lia) Hrun))))).
Defined.

(** X6: no message is lost or made up: at every point of a run the messages
    sent are those in flight together with those received; what is in
    flight goes to rank 0 and is the sender's own message; when the run
    completes nothing is left in flight. *)
Theorem messages_conserved {coord row cell_t : Type}
    (potential : cell_t → coord * coord * coord → exn row)
    (SIZE : nat) (Xf Yf Zf : list coord) (c : cell_t)
    (tr : list (event coord row)) (w : world coord row cell_t) :
  1 ≤ SIZE →
  run (init potential SIZE Xf Yf Zf c) tr w →
  sends tr ≡ₚ net w ++ ((λ d, (d.1.2, d.1.1, d.2)) <$> recvs tr) ∧
  (∀ s d m, (s, d, m) ∈ net w →
     d = 0 ∧ 1 ≤ s < SIZE ∧ m = outgoing potential SIZE Xf Yf Zf c s) ∧
  (finished w → net w = []).
Proof.
  intros HS Hrun.
  destruct (run_inv potential SIZE Xf Yf Zf c HS tr w Hrun)
    as (fl & arr & tr0 & Htr & Hcase).
  pose proof Htr as [Hnd Hranks Hsends Hrecvs Hbar].
  assert ((λ d : nat * nat * Message coord row, (d.1.2, d.1.1, d.2)) <$> recvs tr0
          = packet potential SIZE Xf Yf Zf c <$> arr) as Hrev.
  { rewrite Hrecvs, <- list_fmap_compose. by apply list_fmap_ext. }
  destruct Hcase as [[-> ->]|(-> & -> & -> & Hperm & e0 & Hst)].
  - split; [by rewrite Hrev, Hsends, fmap_app|]. split.
    + intros s d m Hin. simpl in Hin.
      apply list_elem_of_fmap in Hin as (r & Hr & Hin).
      unfold packet in Hr. injection Hr as -> -> ->.
      destruct (Hranks r) as [? _]; [apply elem_of_app; auto|done].
    + intros Hfin.
      destruct (finished_inv potential SIZE Xf Yf Zf c HS _ _ Hrun Hfin)
        as (arr' & tr' & e' & Heq & _ & [_ _ _ _ Hb'] & _).
      rewrite Heq, barriers_snoc, Hb' in Hbar. unfold barriers in Hbar at 1.
      simpl in Hbar. lia.
  - rewrite sends_barrier, recvs_barrier. simpl.
    split; [by rewrite Hrev, Hsends|]. split; [|done].
    intros s d m Hin. by apply elem_of_nil in Hin.
Qed.

Lemma messages_conserved_witness :
  let pot := λ (_ : unit) (_ : nat * nat * nat), @inr error unit () in
  net (gathered pot 3 [0; 1; 2; 3] [0; 0; 0; 0] [5; 6; 7; 8] () [2; 1]) = [].
Proof.
  intros pot.
  pose proof (run_schedule pot 3 [0; 1; 2; 3] [0; 0; 0; 0] [5; 6; 7; 8] ()
                ltac:(lia) [2; 1]
                ltac:(repeat constructor; by eexists) ltac:(apply perm_swap))
    as [Hrun Hfin].
  exact (proj2 (proj2 (messages_conserved pot 3 _ _ _ () _ _ ltac:(lia) Hrun)) Hfin).
Defined.

(** ** The end of a run *)

Lemma ready_slices {coord row cell_t : Type}
    (potential : cell_t → coord * coord * coord → exn row)
    (SIZE : nat) (Xf Yf Zf : list coord) (c : cell_t) (r : nat)
    (e : RecExtElectrode coord row) :
  1 ≤ SIZE →
  ns (start potential SIZE Xf Yf Zf c r) = ready c e →
  x e = stride SIZE r Xf ∧ y e = stride SIZE r Yf ∧ z e = stride SIZE r Zf.
Proof.
  intros HS. unfold start, boot. rewrite electrodeParameters_ok by done.
  unfold simulate. destruct (for_all _ _) as [err|lfp]; [done|]. simpl.
  intros He. assert ({| x := stride SIZE r Xf; y := stride SIZE r Yf;
                        z := stride SIZE r Zf; LFP := lfp |} = e) as <-.
  { destruct (Nat.eqb r 0); simpl in He; by injection He. }
  done.
Qed.

Lemma recv_sources {coord row cell_t : Type}
    (potential : cell_t → coord * coord * coord → exn row)
    (SIZE : nat) (Xf Yf Zf : list coord) (c : cell_t) fl arr
    (tr : list (event coord row)) :
  gather_trace potential SIZE Xf Yf Zf c fl arr tr →
  (λ d, d.1.2) <$> recvs tr = arr.
Proof.
  intros [_ _ _ Hr _]. rewrite Hr, <- list_fmap_compose.
  rewrite <- (list_fmap_id arr) at 2. by apply list_fmap_ext.
Qed.

(** X7: in a run that completes, the merged arrays are, one after the
    other, the slice of rank 0 and the slices of the other ranks in the
    order in which their messages arrived: the order of arrival fixes the
    order of the merged contacts. Each other rank arrives exactly once. *)
Theorem merged_order_explicit {coord row cell_t : Type}
    (potential : cell_t → coord * coord * coord → exn row)
    (SIZE : nat) (Xf Yf Zf : list coord) (c : cell_t)
    (tr : list (event coord row)) (w : world coord row cell_t) :
  1 ≤ SIZE →
  run (init potential SIZE Xf Yf Zf c) tr w → finished w →
  let arr := (λ d, d.1.2) <$> recvs tr in
  arr ≡ₚ seq 1 (SIZE - 1) ∧
  ∃ p e,
    procs w !! 0 = Some p ∧ electrode (ns p) = Some e ∧
    x e = mjoin ((λ r, stride SIZE r Xf) <$> 0 :: arr) ∧
    y e = mjoin ((λ r, stride SIZE r Yf) <$> 0 :: arr) ∧
    z e = mjoin ((λ r, stride SIZE r Zf) <$> 0 :: arr).
Proof.
  intros HS Hrun Hfin arr.
  destruct (finished_root potential SIZE Xf Yf Zf c HS tr w Hrun Hfin)
    as (arr' & tr0 & e0 & p & -> & Htr & Hperm & -> & Hst & Hp & ->).
  assert (arr = arr') as ->.
  { subst arr. rewrite recvs_barrier. by eapply recv_sources. }
  split; [done|]. eexists _, _. split; [exact Hp|]. simpl. split; [done|].
  assert (ns (start potential SIZE Xf Yf Zf c 0) = ready c e0) as Hns
    by (by rewrite Hst).
  destruct (ready_slices potential SIZE Xf Yf Zf c 0 e0 HS Hns) as (Hx & Hy & Hz).
  rewrite merge_fields. simpl. rewrite Hx, Hy, Hz, <- !list_fmap_compose.
  destruct Htr as [_ Hranks _ _ _].
  assert (∀ (f : RecExtElectrode coord row → list coord) (Af : list coord),
            (∀ r e, ns (start potential SIZE Xf Yf Zf c r) = ready c e →
                    f e = stride SIZE r Af) →
            (λ r, f (of_message (outgoing potential SIZE Xf Yf Zf c r))) <$> arr'
            = (λ r, stride SIZE r Af) <$> arr') as Hfield.
  { intros f Af Hf. apply list_fmap_ext. intros j r Hr.
    apply list_elem_of_lookup_2 in Hr. destruct (Hranks r Hr) as [Hr1 Hpc].
    destruct (sender_ready potential SIZE Xf Yf Zf c r ltac:(lia) Hpc) as [e He].
    by rewrite (outgoing_ready potential _ _ _ _ _ _ _ He), of_message_of, (Hf r e He). }
  split; [|split]; f_equal; f_equal; apply Hfield; intros r e He;
    by apply (ready_slices potential SIZE Xf Yf Zf c r e HS) in He as (? & ? & ?).
Qed.

Lemma merged_order_explicit_witness :
  let pot := λ (_ : unit) (_ : nat * nat * nat), @inr error unit () in
  ∃ p e,
    procs (gathered pot 3 [0; 1; 2; 3; 4] [0; 0; 0; 0; 0] [5; 6; 7; 8; 9] () [2; 1])
      !! 0 = Some p ∧
    electrode (ns p) = Some e ∧ x e = [0; 3; 2; 1; 4].
Proof.
  intros pot.
  pose proof (run_schedule pot 3 [0; 1; 2; 3; 4] [0; 0; 0; 0; 0] [5; 6; 7; 8; 9] ()
                ltac:(lia) [2; 1]
                ltac:(repeat constructor; by eexists) ltac:(apply perm_swap))
    as [Hrun Hfin].
  destruct (merged_order_explicit pot 3 _ _ _ () _ _ ltac:(lia) Hrun Hfin)
    as (_ & p & e & Hp & He & Hx & _).
  by exists p, e.
Defined.

(** X8: a run that completes ends in a world that depends on the order of
    arrival only: two completed runs with the same receives end in the
    same world, however the sends and receives were interleaved. Two
    completed runs always agree on every rank other than 0, and the
    merged arrays of one are a permutation of those of the other. *)
Theorem final_world_by_arrival {coord row cell_t : Type}
    (potential : cell_t → coord * coord * coord → exn row)
    (SIZE : nat) (Xf Yf Zf : list coord) (c : cell_t)
    (tr1 tr2 : list (event coord row)) (w1 w2 : world coord row cell_t) :
  1 ≤ SIZE →
  run (init potential SIZE Xf Yf Zf c) tr1 w1 → finished w1 →
  run (init potential SIZE Xf Yf Zf c) tr2 w2 → finished w2 →
  (recvs tr1 = recvs tr2 → w1 = w2) ∧
  (∀ r, r ≠ 0 → procs w1 !! r = procs w2 !! r) ∧
  ∃ p1 e1 p2 e2,
    procs w1 !! 0 = Some p1 ∧ electrode (ns p1) = Some e1 ∧
    procs w2 !! 0 = Some p2 ∧ electrode (ns p2) = Some e2 ∧
    x e1 ≡ₚ x e2 ∧ y e1 ≡ₚ y e2 ∧ z e1 ≡ₚ z e2 ∧ LFP e1 ≡ₚ LFP e2.
Proof.
  intros HS Hrun1 Hfin1 Hrun2 Hfin2.
  destruct (finished_root potential SIZE Xf Yf Zf c HS tr1 w1 Hrun1 Hfin1)
    as (arr1 & tr1' & e0 & p1 & -> & Htr1 & Hperm1 & -> & Hst & Hp1 & ->).
  destruct (finished_root potential SIZE Xf Yf Zf c HS tr2 w2 Hrun2 Hfin2)
    as (arr2 & tr2' & e0' & p2 & -> & Htr2 & Hperm2 & -> & Hst' & Hp2 & ->).
  assert (e0' = e0) as -> by (rewrite Hst in Hst'; by injection Hst').
  split; [|split].
  - rewrite !recvs_barrier. intros Heq.
    apply (f_equal (fmap (λ d, d.1.2))) in Heq.
    rewrite (recv_sources potential _ _ _ _ _ _ _ _ Htr1) in Heq.
    rewrite (recv_sources potential _ _ _ _ _ _ _ _ Htr2) in Heq. by subst.
  - intros r Hr0. destruct (decide (r < SIZE)) as [Hlt|Hge].
    + rewrite !(gathered_lookup potential) by done. f_equal. f_equal.
      assert (r ∈ [] ++ arr1) as Hin1
        by (simpl; rewrite Hperm1; apply elem_of_seq; lia).
      assert (r ∈ [] ++ arr2) as Hin2
        by (simpl; rewrite Hperm2; apply elem_of_seq; lia).
      unfold proc_at. destruct (decide (r = 0)); [done|].
      destruct (decide (r ∈ [] ++ arr1)); [|done].
      by destruct (decide (r ∈ [] ++ arr2)).
    + rewrite !lookup_ge_None_2; [done|..]; unfold gathered, gathering; simpl;
        rewrite length_imap, length_fmap, length_seq; lia.
  - eexists _, _, _, _. split; [exact Hp1|]. split; [done|].
    split; [exact Hp2|]. split; [done|]. simpl.
    rewrite !merge_fields. simpl.
    assert (arr1 ≡ₚ arr2) as Harr by (by rewrite Hperm1, Hperm2).
    by rewrite Harr.
Qed.

Lemma final_world_by_arrival_witness :
  let pot := λ (_ : unit) (_ : nat * nat * nat), @inr error unit () in
  procs (gathered pot 3 [0; 1; 2; 3] [0; 0; 0; 0] [5; 6; 7; 8] () [2; 1]) !! 1
  = procs (gathered pot 3 [0; 1; 2; 3] [0; 0; 0; 0] [5; 6; 7; 8] () [1; 2]) !! 1.
Proof.
  intros pot.
  pose proof (run_schedule pot 3 [0; 1; 2; 3] [0; 0; 0; 0] [5; 6; 7; 8] ()
                ltac:(lia) [2; 1]
                ltac:(repeat constructor; by eexists) ltac:(apply perm_swap))
    as [Hrun1 Hfin1].
  pose proof (run_schedule pot 3 [0; 1; 2; 3] [0; 0; 0; 0] [5; 6; 7; 8] ()
                ltac:(lia) [1; 2]
                ltac:(repeat constructor; by eexists) ltac:(done))
    as [Hrun2 Hfin2].
  exact (proj1 (proj2 (final_world_by_arrival pot 3 _ _ _ () _ _ _ _ ltac:(lia)
                         Hrun1 Hfin1 Hrun2 Hfin2)) 1 ltac:(lia)).
Defined.

(** X9: the names the loops leave behind. When the run completes, on rank 0
    [i] is [SIZE - 1] and [result] is the message that arrived last, and
    [results] holds [SIZE - 1] messages; with a single rank the loops have
    no turn and [i] and [result] are not bound at all. On the other ranks
    [i] is never bound. *)
Theorem names_after_run {coord row cell_t : Type}
    (potential : cell_t → coord * coord * coord → exn row)
    (SIZE : nat) (Xf Yf Zf : list coord) (c : cell_t)
    (tr : list (event coord row)) (w : world coord row cell_t) :
  1 ≤ SIZE →
  run (init potential SIZE Xf Yf Zf c) tr w → finished w →
  (∃ p rs,
     procs w !! 0 = Some p ∧ results (ns p) = Some rs ∧
     rs = (λ d, d.2) <$> recvs tr ∧ length rs = SIZE - 1 ∧
     result (ns p) = last rs ∧
     i (ns p) = (if decide (SIZE = 1) then None else Some (SIZE - 1)) ∧
     (SIZE = 1 → result (ns p) = None ∧ rs = [])) ∧
  (∀ r p, r ≠ 0 → procs w !! r = Some p → i (ns p) = None).
Proof.
  intros HS Hrun Hfin.
  destruct (finished_root potential SIZE Xf Yf Zf c HS tr w Hrun Hfin)
    as (arr & tr0 & e0 & p & -> & Htr & Hperm & -> & Hst & Hp & ->).
  split.
  - eexists _, _. split; [exact Hp|]. simpl. split; [done|].
    split; [by rewrite recvs_barrier, (recvs_payloads potential _ _ _ _ _ _ _ _ Htr)|].
    split; [by rewrite length_fmap, Hperm, length_seq|]. split; [done|].
    split.
    + unfold xrange. destruct (decide (SIZE = 1)) as [->|Hne]; [done|].
      replace (SIZE - 1) with (S (SIZE - 2)) at 1 by lia.
      rewrite seq_S, last_snoc. f_equal. lia.
    + intros ->. simpl in Hperm. apply Permutation_nil_r in Hperm. by subst.
  - intros r p Hr0 Hp'.
    assert (r < SIZE) as Hlt.
    { apply lookup_lt_Some in Hp'. unfold gathered, gathering in Hp'.
      simpl in Hp'. by rewrite length_imap, length_fmap, length_seq in Hp'. }
    rewrite (gathered_lookup potential) in Hp' by done. injection Hp' as <-.
    unfold proc_at. rewrite decide_False by done.
    rewrite decide_True by (simpl; rewrite Hperm; apply elem_of_seq; lia).
    unfold after_barrier. by destruct (Nat.eqb_spec r 0).
Qed.

Lemma names_after_run_witness :
  let pot := λ (_ : unit) (_ : nat * nat * nat), @inr error unit () in
  ∃ p, procs (gathered pot 3 [0; 1; 2; 3] [0; 0; 0; 0] [5; 6; 7; 8] () [2; 1]) !! 0
       = Some p ∧
       i (ns p) = Some 2 ∧ result (ns p) = Some ([1], [0], [6], [()]).
Proof.
  intros pot.
  pose proof (run_schedule pot 3 [0; 1; 2; 3] [0; 0; 0; 0] [5; 6; 7; 8] ()
                ltac:(lia) [2; 1]
                ltac:(repeat constructor; by eexists) ltac:(apply perm_swap))
    as [Hrun Hfin].
  destruct (proj1 (names_after_run pot 3 _ _ _ () _ _ ltac:(lia) Hrun Hfin))
    as (p & rs & Hp & Hrs & -> & _ & Hres & Hi & _).
  exists p. split; [done|]. split; [exact Hi|]. exact Hres.
Defined.

(** ** Merging step by step *)


